(** * The unauthenticated Spotify journey: a model of the Playwright test

    The repository holds one end-to-end test,
    [tests/episode-01-spotify-unauthenticated-flow.spec.ts].  The test
    drives a browser through the Playwright API; the browser and the
    site are outside the repository.  The development below embeds the
    test as a program in a small state-and-exception monad, running
    against an abstract browser (a [Browser] record: states, what is
    rendered in a state, how the page moves when time passes or when
    the test acts on it).

    Conventions taken from the Playwright documentation:
    - a locator is a query, resolved again at every use, to the list
      of matching elements in document order;
    - operations that need one element are strict: they raise a
      strict-mode violation when the locator resolves to several
      elements; [first()] and [nth(i)] narrow a locator to one;
    - [waitFor] and the [expect(locator)] matchers retry until their
      timeout; actions and reads without a timeout of their own
      ([actionTimeout: 0] in [playwright.config.ts]) retry until the
      runner's test timeout ends the run, which no [catch] intercepts;
    - [isVisible] and [count] answer at once.

    Time is counted in milliseconds; one [tick] of the browser is one
    millisecond without test input.  Console output is not modelled. *)

From Stdlib Require Import List String Ascii Bool Arith NArith Lia.
Import ListNotations.
Local Open Scope string_scope.
Local Open Scope list_scope.
Local Open Scope nat_scope.

(** ** Text helpers (the JavaScript string operations the test uses) *)

Module Text.

(** [haystack.includes(needle)]. *)
Fixpoint contains (needle hay : string) : bool :=
  if String.prefix needle hay then true
  else match hay with
       | EmptyString => false
       | String _ rest => contains needle rest
       end.

Definition lower_ascii (c : ascii) : ascii :=
  let n := nat_of_ascii c in
  if ((65 <=? n) && (n <=? 90))%nat then ascii_of_nat (n + 32) else c.

Fixpoint to_lower (s : string) : string :=
  match s with
  | EmptyString => EmptyString
  | String c rest => String (lower_ascii c) (to_lower rest)
  end.

(** A regular expression [/literal/i] whose body is a plain ASCII
    literal: case-insensitive containment. *)
Definition icontains (needle hay : string) : bool :=
  contains (to_lower needle) (to_lower hay).

Definition is_space (c : ascii) : bool :=
  let n := nat_of_ascii c in
  ((n =? 32) || ((9 <=? n) && (n <=? 13)))%nat.

Fixpoint drop_spaces (l : list ascii) : list ascii :=
  match l with
  | c :: rest => if is_space c then drop_spaces rest else l
  | [] => []
  end.

(** [s.trim()], on ASCII white space. *)
Definition trim (s : string) : string :=
  string_of_list_ascii
    (rev (drop_spaces (rev (drop_spaces (list_ascii_of_string s))))).

(** JavaScript truthiness of a string. *)
Definition truthy (s : string) : bool := negb (String.eqb s EmptyString).

End Text.

(** The double-quote character, for CSS attribute selectors. *)
Definition dq : string := String (ascii_of_nat 34) EmptyString.

(** The CSS attribute selector: name, operator, quoted value, in brackets. *)
Definition attr_sel (name op v : string) : string :=
  ("[" ++ name ++ op ++ dq ++ v ++ dq ++ "]")%string.

(** ** Locators, elements and pages *)

(** The [hasText] / [name] argument of a locator: a string or a
    regular expression literal [/source/flags]. *)
Inductive text_pat : Type :=
| Lit (s : string)
| Rx (source flags : string).

Inductive locator : Type :=
| GetByTestId (id : string)
| GetByText (text : string) (exact : bool)
| GetByRole (role : string) (name : option text_pat)
| Css (selector : string)
| Filter (base : locator) (hasText : text_pat)
| Sub (parent : locator) (selector : string) (hasText : option text_pat)
| First (base : locator)
| Nth (base : locator) (i : nat).

Record element : Type := Element {
  node : nat;
  visible : bool;
  enabled : bool;
  editable : bool;
  focused : bool;
  text : string;
  value : string;
  attrs : list (string * string)
}.

Inductive load_state : Type := DomContentLoaded | Load | NetworkIdle.

(** What the browser shows at one instant.  [dom] answers the queries
    the site decides (test ids, text, roles, CSS); [first()] and
    [nth()] are resolved on top of it by [resolve]. *)
Record page : Type := Page {
  url : string;
  title : string;
  reached : load_state -> bool;
  dom : locator -> list element
}.

Fixpoint resolve (p : page) (l : locator) : list element :=
  match l with
  | First base => firstn 1 (resolve p base)
  | Nth base i => match nth_error (resolve p base) i with
                  | Some e => [e]
                  | None => []
                  end
  | _ => dom p l
  end.

Fixpoint lookup_attr (name : string) (l : list (string * string)) : option string :=
  match l with
  | [] => None
  | (k, v) :: rest => if String.eqb k name then Some v else lookup_attr name rest
  end.

(** The rendered-page collaborator. *)
Record Browser : Type := {
  state : Type;
  render : state -> page;
  tick : state -> state;
  navigate : string -> state -> option state;
  click_on : element -> state -> state;
  fill_in : element -> string -> state -> state;
  clear_cookies : state -> state;
  set_viewport : N -> N -> state -> state
}.

(** ** Events and errors *)

Inductive query : Type :=
| QWaitFor (timeout : N)
| QExpectVisible
| QExpectEnabled
| QExpectEditable
| QExpectFocused
| QExpectValue (v : string)
| QIsVisible
| QCount
| QTextContent
| QGetAttribute (name : string)
| QActionable
| QFillable.

Inductive page_query : Type :=
| PWaitForLoadState (s : load_state)
| PExpectURL (pattern : string)
| PExpectTitle (pattern : string)
| PUrl.

Inductive event : Type :=
| EvQuery (q : query) (l : locator) (ok : bool)
| EvPage (q : page_query) (ok : bool)
| EvScreenshot (path : string)
| EvGoto (target : string)
| EvClick (l : locator)
| EvFill (l : locator) (v : string)
| EvClear (l : locator)
| EvClearCookies
| EvSetViewport (width height : N).

(** Read-only events: queries and evidence capture. *)
Definition is_query (ev : event) : bool :=
  match ev with
  | EvQuery _ _ _ | EvPage _ _ | EvScreenshot _ => true
  | _ => false
  end.

Inductive failure : Type :=
| Timeout
| StrictViolation (matches : nat).

Inductive error : Type :=
| LocatorError (f : failure) (q : query) (l : locator)
| PageError (q : page_query)
| ExpectError (matcher received : string)
| NavigationError (target : string)
| JsError (message : string).

(** The locators an error message names (Playwright prints the locator
    being waited for in its call log). *)
Definition error_locators (e : error) : list locator :=
  match e with
  | LocatorError _ _ l => [l]
  | _ => []
  end.

(** ** The locators of the test *)

Definition album_title : string := "The Dark Side of the Moon".

Definition languageButton : locator := GetByTestId "language-selection-button".
Definition languageDropdown : locator :=
  Css ((attr_sel "role" "=" "listbox") ++ ", " ++ (attr_sel "role" "=" "menu")
       ++ ", .language-dropdown, " ++ (attr_sel "data-testid" "*=" "language"))%string.
Definition languageOptions : locator :=
  Css ((attr_sel "role" "=" "option") ++ ", " ++ (attr_sel "role" "=" "menuitem"))%string.
Definition ptBROption : locator := GetByTestId "language-option-pt-BR".
Definition portugueseElements : locator :=
  Css "text=/Pesquisar|Entrar|Criar conta|Português|Brasil/i".
Definition searchInput : locator := GetByTestId "search-input".
Definition searchSuggestions : locator :=
  Css ((attr_sel "data-testid" "*=" "search") ++ ", " ++ (attr_sel "role" "=" "listbox")
       ++ ", .search-suggestions")%string.

Definition albumExact : locator := GetByText album_title true.
Definition albumPartial : locator := Css ("text=" ++ album_title)%string.
Definition albumTitleAttr : locator := Css (attr_sel "title" "*=" album_title).
Definition albumCard : locator :=
  Filter (Css (attr_sel "data-testid" "*=" "card")) (Lit album_title).

Definition albumPageIndicators : list locator :=
  [ Filter (Css "h1") (Rx album_title "i");
    Css (attr_sel "data-testid" "=" "album-title");
    Css (attr_sel "data-testid" "=" "entity-title");
    GetByText album_title false ].

Definition play_rx : text_pat := Rx "^Play$" "i".
Definition tracklistArea : locator :=
  Css ((attr_sel "data-testid" "=" "tracklist") ++ ", .tracklist, "
       ++ (attr_sel "role" "=" "grid"))%string.
Definition tracklistPlay : locator := Sub tracklistArea "button" (Some play_rx).
Definition playByRole : locator := First (GetByRole "button" (Some play_rx)).
Definition playByText : locator := First (Filter (Css "button") play_rx).
Definition allButtons : locator := GetByRole "button" None.

Definition targetPortugueseText : string := "Escute com uma conta gratuita do Spotify".
Definition portugueseAuthText : locator := GetByText targetPortugueseText false.
Definition alternativePortuguesePatterns : list string :=
  [ "conta gratuita"; "Spotify gratuito"; "Escute"; "Inscrever-se"; "Entrar";
    "conta do Spotify" ].
Definition albumElements : locator :=
  Css ("h1, " ++ (attr_sel "data-testid" "=" "album-title") ++ ", "
       ++ (attr_sel "data-testid" "=" "tracklist"))%string.

(** Equality of locators, decided. *)
Definition text_pat_eqb (a b : text_pat) : bool :=
  match a, b with
  | Lit x, Lit y => String.eqb x y
  | Rx x f, Rx y g => String.eqb x y && String.eqb f g
  | _, _ => false
  end.

Definition opt_pat_eqb (a b : option text_pat) : bool :=
  match a, b with
  | Some x, Some y => text_pat_eqb x y
  | None, None => true
  | _, _ => false
  end.

Fixpoint locator_eqb (a b : locator) : bool :=
  match a, b with
  | GetByTestId x, GetByTestId y => String.eqb x y
  | GetByText x e, GetByText y f => String.eqb x y && Bool.eqb e f
  | GetByRole r n, GetByRole q m => String.eqb r q && opt_pat_eqb n m
  | Css x, Css y => String.eqb x y
  | Filter l h, Filter k g => locator_eqb l k && text_pat_eqb h g
  | Sub l x h, Sub k y g => locator_eqb l k && String.eqb x y && opt_pat_eqb h g
  | First l, First k => locator_eqb l k
  | Nth l i, Nth k j => locator_eqb l k && Nat.eqb i j
  | _, _ => false
  end.

(** Whether the log holds a query on the locator that was answered
    affirmatively. *)
Definition observed (l : locator) (evs : list event) : bool :=
  existsb (fun ev => match ev with
                     | EvQuery _ l' true => locator_eqb l l'
                     | _ => false
                     end) evs.

(** ** A small site to run the test against

    A scripted stand-in for the music service, with switches for what
    it shows, used for the concrete runs further down. *)

Module Demo.

Inductive screen : Type := Blank | Home | Results | Album.

Record site : Type := Site {
  portuguese_ui : bool;   (* Portuguese labels show after the switch *)
  suggestions : bool;     (* a suggestion list shows under the search box *)
  text_entries : nat;     (* result entries found by exact and partial text *)
  titled_entries : nat;   (* result entries found by their title attribute *)
  card_entries : nat;     (* result cards holding the album title *)
  album_heading : bool;   (* the album page shows the title heading *)
  tracklist_plays : nat;  (* Play buttons inside the tracklist *)
  play_delay : N;         (* ms before the main Play button is visible *)
  prompt : bool;          (* the login prompt carries the target phrase *)
  login_buttons : bool    (* the login prompt has Portuguese buttons *)
}.

Record state : Type := State {
  cfg : site;
  clock : N;
  shown : screen;
  menu_open : bool;
  portuguese : bool;
  search_focused : bool;
  typed : string;
  opened_at : N;
  modal : bool
}.

Definition el (n : nat) (txt : string) : element :=
  Element n true true false false txt EmptyString [].

Definition entries (first_node count : nat) (txt : string) : list element :=
  map (fun i => el (first_node + i) txt) (seq 0 count).

Definition main_play (st : state) : element :=
  Element 30 (opened_at st + play_delay (cfg st) <=? clock st)%N true false false
    "Play" EmptyString [("aria-label", "Play")].

Definition track_plays (st : state) : list element :=
  entries 31 (tracklist_plays (cfg st)) "Play".

Definition heading (st : state) : list element :=
  if album_heading (cfg st) then [el 40 album_title] else [].

Definition on_screen (st : state) (sc : screen) : bool :=
  match shown st, sc with
  | Blank, Blank | Home, Home | Results, Results | Album, Album => true
  | _, _ => false
  end.

Definition is_in (l : locator) (ls : list locator) : bool :=
  existsb (locator_eqb l) ls.

Definition dom_of (st : state) (l : locator) : list element :=
  if on_screen st Blank then []
  else if locator_eqb l languageButton then
    [el 1 (if portuguese st then "Português do Brasil" else "English")]
  else if locator_eqb l languageDropdown then
    if menu_open st then [el 2 "English Português do Brasil"] else []
  else if locator_eqb l languageOptions then
    if menu_open st then [el 3 "English"; el 4 "Português do Brasil"] else []
  else if locator_eqb l ptBROption then
    if menu_open st then [el 4 "Português do Brasil"] else []
  else if locator_eqb l portugueseElements then
    if portuguese st && portuguese_ui (cfg st)
    then [el 5 "Pesquisar"; el 6 "Entrar"] else []
  else if locator_eqb l searchInput then
    [Element 7 true true true (search_focused st) EmptyString (typed st)
       [("placeholder", "O que você quer ouvir?")]]
  else if locator_eqb l searchSuggestions then
    if suggestions (cfg st) && on_screen st Results then [el 8 "Pink Floyd"] else []
  else if on_screen st Results then
    if is_in l [albumExact; albumPartial] then
      entries 10 (text_entries (cfg st)) album_title
    else if locator_eqb l albumTitleAttr then
      entries 15 (titled_entries (cfg st)) album_title
    else if locator_eqb l albumCard then
      entries 20 (card_entries (cfg st)) "The Dark Side of the Moon Pink Floyd"
    else []
  else if on_screen st Album then
    if is_in l [ Filter (Css "h1") (Rx album_title "i");
                 Css (attr_sel "data-testid" "=" "entity-title");
                 GetByText album_title false; albumElements ] then heading st
    else if is_in l [ GetByRole "button" (Some play_rx); Filter (Css "button") play_rx ]
    then main_play st :: track_plays st
    else if locator_eqb l tracklistPlay then track_plays st
    else if locator_eqb l allButtons then
      el 29 "Follow" :: main_play st :: track_plays st
    else if is_in l [ portugueseAuthText; GetByText "conta gratuita" false;
                      GetByText "Escute" false; GetByText "conta do Spotify" false ]
    then if modal st && prompt (cfg st) then [el 50 targetPortugueseText] else []
    else if locator_eqb l (GetByText "Inscrever-se" false) then
      if modal st && login_buttons (cfg st) then [el 51 "Inscrever-se"] else []
    else if locator_eqb l (GetByText "Entrar" false) then
      if modal st && login_buttons (cfg st) then [el 52 "Entrar"] else []
    else []
  else [].

Definition url_of (st : state) : string :=
  match shown st with
  | Blank => "about:blank"
  | Home => "https://open.spotify.com/"
  | Results => "https://open.spotify.com/search/pink%20floyd"
  | Album => "https://open.spotify.com/album/4LH4d3cOWNNsVw41Gqt2kv"
  end.

Definition render (st : state) : page :=
  Page (url_of st) "Spotify - Web Player: Music for everyone"
    (fun _ => true) (dom_of st).

Definition tick (st : state) : state :=
  State (cfg st) (N.succ (clock st)) (shown st) (menu_open st) (portuguese st)
    (search_focused st) (typed st) (opened_at st) (modal st).

Definition navigate (target : string) (st : state) : option state :=
  Some (State (cfg st) (clock st) Home false (portuguese st) false EmptyString
          (opened_at st) false).

Definition click_on (e : element) (st : state) : state :=
  let n := node e in
  if n =? 1 then
    State (cfg st) (clock st) (shown st) true (portuguese st)
      (search_focused st) (typed st) (opened_at st) (modal st)
  else if n =? 4 then
    State (cfg st) (clock st) (shown st) false true
      (search_focused st) (typed st) (opened_at st) (modal st)
  else if n =? 7 then
    State (cfg st) (clock st) (shown st) (menu_open st) (portuguese st)
      true (typed st) (opened_at st) (modal st)
  else if (10 <=? n) && (n <? 29) then
    State (cfg st) (clock st) Album false (portuguese st)
      false (typed st) (clock st) false
  else if (30 <=? n) && (n <? 40) then
    State (cfg st) (clock st) (shown st) (menu_open st) (portuguese st)
      (search_focused st) (typed st) (opened_at st) true
  else st.

Definition fill_in (e : element) (v : string) (st : state) : state :=
  if node e =? 7 then
    State (cfg st) (clock st)
      (if String.eqb v EmptyString then shown st else Results)
      (menu_open st) (portuguese st) (search_focused st) v (opened_at st) (modal st)
  else st.

Definition browser : Browser :=
  Build_Browser state render tick navigate click_on fill_in
    (fun st => st) (fun _ _ st => st).

(** A fresh browser on a site. *)
Definition start (c : site) : state :=
  State c 0%N Blank false false false EmptyString 0%N false.

(** The site as the test expects it. *)
Definition usual : site := Site true true 1 1 1 true 0 0%N true true.

(** The same journey on a site that shows no Portuguese text, no
    suggestions, no album heading and no Portuguese login prompt. *)
Definition bare : site := Site false false 1 1 1 false 0 0%N false false.


(** The usual site, but the Play button opens no Portuguese prompt. *)
Definition no_prompt : site := Site true true 1 1 1 true 0 0%N false false.

(** The usual site, but the album page shows no title heading. *)
Definition no_heading : site := Site true true 1 1 1 false 0 0%N true true.

(** Only one result entry carries a title attribute; two match the
    text locators. *)
Definition one_titled : site := Site true true 2 1 2 true 0 0%N true true.

(** Two result entries match every album locator. *)
Definition twins : site := Site true true 2 2 2 true 0 0%N true true.

(** No result entry matches any album locator. *)
Definition missing : site := Site true true 0 0 0 true 0 0%N true true.

(** The album page has three Play buttons in its tracklist, besides
    the main one. *)
Definition busy_tracklist : site := Site true true 1 1 1 true 3 0%N true true.

(** The main Play button shows six seconds after the album opens. *)
Definition slow_play : site := Site true true 1 1 1 true 0 6000%N true true.

(** The browser after the language switch, on the home page. *)
Definition at_home (c : site) : state :=
  State c 0%N Home false true false EmptyString 0%N false.

(** The browser on the search results for the query. *)
Definition at_results (c : site) : state :=
  State c 0%N Results false true true "pink floyd" 0%N false.

(** The browser on the album page, before and after the click on the
    Play button. *)
Definition at_album (c : site) : state :=
  State c 0%N Album false true false "pink floyd" 0%N false.


(** A state some milliseconds later. *)
Definition later (n : nat) (st : state) : state :=
  State (cfg st) (clock st + N.of_nat n) (shown st) (menu_open st) (portuguese st)
    (search_focused st) (typed st) (opened_at st) (modal st).

End Demo.

(** ** Configuration ([playwright.config.ts]) *)

(** [timeout: 60 * 1000]: the runner's limit for one test. *)
Definition test_timeout : N := (60 * 1000)%N.

(** [expect: { timeout: 5000 }]. *)
Definition expect_timeout : N := 5000%N.

(** ** The test monad *)

Inductive outcome (A : Type) : Type :=
| Ok (a : A)
| Throw (e : error)
| TimedOut.
Arguments Ok {A} a.
Arguments Throw {A} e.
Arguments TimedOut {A}.

(** The exception an outcome carries, if any. *)
Definition raised {A : Type} (r : outcome A) : option error :=
  match r with
  | Throw e => Some e
  | _ => None
  end.

Inductive poll (A : Type) : Type :=
| Ready (a : A)
| Pending
| Violation (matches : nat).
Arguments Ready {A} a.
Arguments Pending {A}.
Arguments Violation {A} matches.

(** A strict operation: no element yet, one element, or ambiguity. *)
Definition strict {A : Type} (f : element -> poll A) (els : list element) : poll A :=
  match els with
  | [] => Pending
  | [e] => f e
  | _ :: _ :: _ => Violation (List.length els)
  end.

Definition when_ (b : bool) : poll unit := if b then Ready tt else Pending.

Section Journey.

Variable B : Browser.

(** Browser state, the record of Playwright calls, and the step's
    [let] variables. *)
Record st (L : Type) : Type := St {
  world : state B;
  log : list event;
  vars : L
}.
Arguments St {L} world log vars.
Arguments world {L} s.
Arguments log {L} s.
Arguments vars {L} s.

Definition M (L A : Type) : Type := st L -> outcome A * st L.

Definition ret {L A : Type} (a : A) : M L A := fun s => (Ok a, s).

Definition bind {L A C : Type} (m : M L A) (k : A -> M L C) : M L C :=
  fun s =>
    match m s with
    | (Ok a, s') => k a s'
    | (Throw e, s') => (Throw e, s')
    | (TimedOut, s') => (TimedOut, s')
    end.

Definition throw {L A : Type} (e : error) : M L A := fun s => (Throw e, s).

(** [try { body } catch { handler }]: the handler does not look at
    the exception.  The end of the run by the test timeout is not an
    exception. *)
Definition try_catch {L A : Type} (body handler : M L A) : M L A :=
  fun s =>
    match body s with
    | (Throw _, s') => handler s'
    | r => r
    end.

Definition get_vars {L : Type} : M L L := fun s => (Ok (vars s), s).

Definition set_vars {L : Type} (v : L) : M L unit :=
  fun s => (Ok tt, St (world s) (log s) v).

Definition emit {L : Type} (s : st L) (ev : event) (w : state B) : st L :=
  St w (log s ++ [ev]) (vars s).

Notation "x <- m ;; k" := (bind m (fun x => k))
  (at level 100, m at next level, right associativity).
Notation "m ;; k" := (bind m (fun _ => k))
  (at level 100, right associativity).

(** Run a block with fresh local variables. *)
Definition with_locals {L A : Type} (init : L) (m : M L A) : M unit A :=
  fun s =>
    let (r, s') := m (St (world s) (log s) init) in
    (r, St (world s') (log s') tt).

(** *** Retrying *)

(** Probe now; while the answer is pending and budget is left, let one
    millisecond pass and probe again. *)
Fixpoint poll_loop {A : Type} (budget : nat) (probe : page -> poll A)
    (w : state B) : poll A * state B :=
  match probe (render B w) with
  | Pending =>
      match budget with
      | 0 => (Pending, w)
      | S budget' => poll_loop budget' probe (tick B w)
      end
  | r => (r, w)
  end.

(** Timeouts are written in milliseconds as binary numbers; the
    number of polls is their value.  A call without a timeout of its
    own polls for the length of the test timeout; the time the earlier
    calls of the run took is not subtracted. *)
Definition budget_of (timeout : option N) : nat :=
  match timeout with
  | Some t => N.to_nat t
  | None => N.to_nat test_timeout
  end.

Definition lapse {A : Type} (timeout : option N) (e : error) : outcome A :=
  match timeout with
  | Some _ => Throw e
  | None => TimedOut
  end.

(** A call on a locator.  [affirm] says which answers count as the
    signal having been observed, for the log. *)
Definition locator_query {L A : Type} (q : query) (l : locator)
    (timeout : option N) (probe : list element -> poll A)
    (affirm : A -> bool) : M L A :=
  fun s =>
    let (r, w) := poll_loop (budget_of timeout)
                    (fun p => probe (resolve p l)) (world s) in
    match r with
    | Ready a => (Ok a, emit s (EvQuery q l (affirm a)) w)
    | Violation n =>
        (Throw (LocatorError (StrictViolation n) q l),
         emit s (EvQuery q l false) w)
    | Pending =>
        (lapse timeout (LocatorError Timeout q l),
         emit s (EvQuery q l false) w)
    end.

Definition yes {A : Type} (_ : A) : bool := true.

(** [locator.waitFor({ state: 'visible', timeout })]. *)
Definition waitFor {L : Type} (l : locator) (timeout : N) : M L unit :=
  locator_query (QWaitFor timeout) l (Some timeout)
    (strict (fun e => when_ (visible e))) yes.

(** [expect(locator).toBeVisible()] and its siblings. *)
Definition expect_visible {L : Type} (l : locator) : M L unit :=
  locator_query QExpectVisible l (Some expect_timeout)
    (strict (fun e => when_ (visible e))) yes.

Definition expect_enabled {L : Type} (l : locator) : M L unit :=
  locator_query QExpectEnabled l (Some expect_timeout)
    (strict (fun e => when_ (enabled e))) yes.

Definition expect_editable {L : Type} (l : locator) : M L unit :=
  locator_query QExpectEditable l (Some expect_timeout)
    (strict (fun e => when_ (editable e))) yes.

Definition expect_focused {L : Type} (l : locator) : M L unit :=
  locator_query QExpectFocused l (Some expect_timeout)
    (strict (fun e => when_ (focused e))) yes.

Definition expect_value {L : Type} (l : locator) (v : string) : M L unit :=
  locator_query (QExpectValue v) l (Some expect_timeout)
    (strict (fun e => when_ (String.eqb (value e) v))) yes.

(** [locator.isVisible()]: answers at once; strict. *)
Definition isVisible {L : Type} (l : locator) : M L bool :=
  locator_query QIsVisible l (Some 0%N)
    (fun els => match els with
                | [] => Ready false
                | [e] => Ready (visible e)
                | _ :: _ :: _ => Violation (List.length els)
                end)
    (fun b => b).

(** [locator.count()]: answers at once; not strict. *)
Definition count {L : Type} (l : locator) : M L nat :=
  locator_query QCount l (Some 0%N) (fun els => Ready (List.length els))
    (fun n => 0 <? n).

(** [locator.textContent()]: waits for the element to be attached. *)
Definition textContent {L : Type} (l : locator) : M L string :=
  locator_query QTextContent l None (strict (fun e => Ready (text e))) yes.

Definition getAttribute {L : Type} (l : locator) (name : string) : M L (option string) :=
  locator_query (QGetAttribute name) l None
    (strict (fun e => Ready (lookup_attr name (attrs e)))) yes.

(** *** Actions *)

Definition act {L : Type} (ev : event) (f : state B -> state B) : M L unit :=
  fun s => (Ok tt, emit s ev (f (world s))).

(** [locator.click()]: waits until the element is visible and enabled,
    then clicks it. *)
Definition click {L : Type} (l : locator) : M L unit :=
  e <- locator_query QActionable l None
         (strict (fun e => if visible e && enabled e then Ready e else Pending)) yes;;
  act (EvClick l) (click_on B e).

Definition fillable (e : element) : poll element :=
  if visible e && enabled e && editable e then Ready e else Pending.

(** [locator.fill(value)]. *)
Definition fill {L : Type} (l : locator) (v : string) : M L unit :=
  e <- locator_query QFillable l None (strict fillable) yes;;
  act (EvFill l v) (fill_in B e v).

(** [locator.clear()]: fills with the empty string. *)
Definition clear {L : Type} (l : locator) : M L unit :=
  e <- locator_query QFillable l None (strict fillable) yes;;
  act (EvClear l) (fill_in B e EmptyString).

(** *** The page object *)

Definition page_wait {L : Type} (q : page_query) (timeout : option N)
    (cond : page -> bool) : M L unit :=
  fun s =>
    let (r, w) := poll_loop (budget_of timeout)
                    (fun p => when_ (cond p)) (world s) in
    match r with
    | Ready _ => (Ok tt, emit s (EvPage q true) w)
    | _ => (lapse timeout (PageError q), emit s (EvPage q false) w)
    end.

(** [page.waitForLoadState(state)]. *)
Definition waitForLoadState {L : Type} (ls : load_state) : M L unit :=
  page_wait (PWaitForLoadState ls) None (fun p => reached p ls).

(** [page.goto(url)]: navigates and waits for the load event. *)
Definition goto {L : Type} (target : string) : M L unit :=
  fun s =>
    match navigate B target (world s) with
    | None => (Throw (NavigationError target), emit s (EvGoto target) (world s))
    | Some w => waitForLoadState Load (emit s (EvGoto target) w)
    end.

(** [page.url()]. *)
Definition page_url {L : Type} : M L string :=
  fun s => (Ok (url (render B (world s))), emit s (EvPage PUrl true) (world s)).

(** [expect(page).toHaveURL(/literal/)]. *)
Definition expect_url {L : Type} (literal : string) : M L unit :=
  page_wait (PExpectURL literal) (Some expect_timeout)
    (fun p => Text.contains literal (url p)).

(** [expect(page).toHaveTitle(/literal/i)]. *)
Definition expect_title_i {L : Type} (literal : string) : M L unit :=
  page_wait (PExpectTitle literal) (Some expect_timeout)
    (fun p => Text.icontains literal (title p)).

(** [page.screenshot({ path, fullPage: true })]. *)
Definition screenshot {L : Type} (path : string) : M L unit :=
  fun s => (Ok tt, emit s (EvScreenshot path) (world s)).

(** [expect(value).matcher(...)], checked once. *)
Definition expect_that {L : Type} (matcher received : string) (holds : bool) : M L unit :=
  if holds then ret tt else throw (ExpectError matcher received).

(** Use of a [let] variable that holds a locator or [undefined]. *)
Definition deref {L : Type} (v : option locator) : M L locator :=
  match v with
  | Some l => ret l
  | None => throw (JsError "locator is undefined")
  end.

(** ** The journey

    One definition per [test.step] of the source, in source order;
    the nested [try]/[catch] chains are kept as they are written. *)

(** *** [test.beforeEach] (source lines 32-38) *)

Definition before_each : M unit unit :=
  act EvClearCookies (clear_cookies B);;
  act (EvSetViewport 1366%N 768%N) (set_viewport B 1366%N 768%N).

(** *** Navigate to Spotify Web homepage (lines 42-60) *)

Definition step_navigate : M unit unit :=
  goto "https://open.spotify.com/";;
  waitForLoadState DomContentLoaded;;
  expect_url "open.spotify.com";;
  expect_title_i "Spotify";;
  screenshot "evidence/01-spotify-homepage-loaded.png".

(** *** Locate and validate language selection button (lines 62-85) *)

Definition expect_meaningful {L : Type} (content : string) : M L unit :=
  expect_that "toBeTruthy" content (Text.truthy content);;
  expect_that "toBeGreaterThan" (Text.trim content)
    (0 <? String.length (Text.trim content)).

Definition step_language_button : M unit unit :=
  expect_visible languageButton;;
  expect_enabled languageButton;;
  buttonText <- textContent languageButton;;
  expect_meaningful buttonText;;
  screenshot "evidence/02-language-button-located.png".

(** *** Open language selection menu (lines 87-129) *)

(** [Promise.race] of two [waitFor] calls with the same timeout: the
    race settles with the first of them that settles. *)
Definition race_waitFor {L : Type} (l1 l2 : locator) (timeout : N) : M L unit :=
  fun s =>
    let seen := strict (fun e => when_ (visible e)) in
    let (r, w) :=
      poll_loop (N.to_nat timeout)
        (fun p => match seen (resolve p l1) with
                  | Ready _ => Ready true
                  | Violation n => Violation n
                  | Pending => match seen (resolve p l2) with
                               | Ready _ => Ready false
                               | Violation n => Violation n
                               | Pending => Pending
                               end
                  end) (world s) in
    let s1 ok := emit s (EvQuery (QWaitFor timeout) l1 ok) w in
    let s2 ok1 ok2 := emit (s1 ok1) (EvQuery (QWaitFor timeout) l2 ok2) w in
    match r with
    | Ready first_won => (Ok tt, s2 first_won (negb first_won))
    | Violation n =>
        (Throw (LocatorError (StrictViolation n) (QWaitFor timeout) l1), s2 false false)
    | Pending =>
        (Throw (LocatorError Timeout (QWaitFor timeout) l1), s2 false false)
    end.

Definition step_open_language_menu : M unit unit :=
  click languageButton;;
  try_catch
    (race_waitFor (First languageDropdown) (First languageOptions) 3000%N;;
     optionCount <- count languageOptions;;
     screenshot "evidence/03-language-selection-opened.png")
    (screenshot "evidence/03-language-click-result.png").

(** *** Select Portuguese (Brazil) language option (lines 131-161) *)

Definition step_select_portuguese : M unit unit :=
  expect_visible ptBROption;;
  expect_enabled ptBROption;;
  optionText <- textContent ptBROption;;
  expect_meaningful optionText;;
  screenshot "evidence/04-before-selecting-pt-br.png";;
  click ptBROption;;
  waitForLoadState NetworkIdle.

(** *** Validate language change took effect (lines 163-195) *)

(** The assertions of the step that are outside any [try]. *)
Definition language_change_mandatory : M unit unit :=
  expect_visible languageButton;;
  currentButtonText <- textContent languageButton;;
  ret tt.

Definition language_change_probe : M unit unit :=
  try_catch
    (waitFor (First portugueseElements) 5000%N;;
     foundPortugueseElements <- count portugueseElements;;
     exampleText <- textContent (First portugueseElements);;
     ret tt)
    (ret tt).

Definition step_validate_language : M unit unit :=
  language_change_mandatory;;
  language_change_probe;;
  screenshot "evidence/05-after-selecting-pt-br.png".

(** *** Locate and interact with search input field (lines 197-227) *)

Definition step_search_input : M unit unit :=
  expect_visible searchInput;;
  expect_enabled searchInput;;
  expect_editable searchInput;;
  placeholder <- getAttribute searchInput "placeholder";;
  expect_that "toBeTruthy" "placeholder"
    (match placeholder with Some v => Text.truthy v | None => false end);;
  screenshot "evidence/06-before-clicking-search.png";;
  click searchInput;;
  expect_focused searchInput.

(** *** Type search query for Pink Floyd (lines 229-270) *)

Definition searchQuery : string := "pink floyd".

Definition suggestions_probe : M unit unit :=
  try_catch
    (waitFor (First searchSuggestions) 2000%N;;
     suggestionsCount <- count searchSuggestions;;
     screenshot "evidence/08-search-suggestions-appeared.png")
    (ret tt).

Definition type_query : M unit unit :=
  clear searchInput;;
  fill searchInput searchQuery;;
  expect_value searchInput searchQuery;;
  screenshot "evidence/07-search-query-entered.png".

Definition step_type_query : M unit unit :=
  type_query;;
  suggestions_probe.

(** *** Wait for search results and locate the album (lines 272-336) *)

Record album_vars : Type := AlbumVars {
  darkSideAlbum : option locator;
  selectorUsed : string
}.

Definition assign_album (l : locator) : M album_vars unit :=
  fun s => (Ok tt, St (world s) (log s) (AlbumVars (Some l) (selectorUsed (vars s)))).

Definition assign_selector (name : string) : M album_vars unit :=
  fun s => (Ok tt, St (world s) (log s) (AlbumVars (darkSideAlbum (vars s)) name)).

Definition album_strategy (l : locator) (timeout : N) (name : string) : M album_vars unit :=
  assign_album l;;
  waitFor l timeout;;
  assign_selector name.

(** The four-strategy chain of the source. *)
Definition locate_album : M album_vars unit :=
  try_catch (album_strategy albumExact 5000%N "exact text match")
    (try_catch (album_strategy albumPartial 3000%N "partial text match")
       (try_catch (album_strategy albumTitleAttr 3000%N "title attribute")
          (album_strategy albumCard 3000%N "data-testid + text filter fallback"))).

Definition step_locate_album : M unit unit :=
  with_locals (AlbumVars None EmptyString)
    (waitForLoadState NetworkIdle;;
     locate_album;;
     v <- get_vars;;
     album <- deref (darkSideAlbum v);;
     expect_visible album;;
     albumText <- textContent album;;
     expect_that "toMatch" albumText (Text.icontains album_title albumText);;
     expect_enabled album;;
     screenshot "evidence/09-search-results-with-dark-side.png").

(** *** Click on the album (lines 338-409) *)

Record click_vars : Type := ClickVars {
  clickTarget : option locator;
  albumPageConfirmed : bool
}.

Definition assign_target (l : locator) : M click_vars unit :=
  fun s => (Ok tt, St (world s) (log s) (ClickVars (Some l) (albumPageConfirmed (vars s)))).

Definition assign_confirmed (b : bool) : M click_vars unit :=
  fun s => (Ok tt, St (world s) (log s) (ClickVars (clickTarget (vars s)) b)).

(** Up to and including the read of [page.url()]. *)
Definition open_album : M click_vars string :=
  screenshot "evidence/10-before-clicking-album.png";;
  try_catch
    (assign_target albumExact;;
     expect_visible albumExact)
    (assign_target (First albumTitleAttr);;
     expect_visible (First albumTitleAttr));;
  v <- get_vars;;
  album <- deref (clickTarget v);;
  expect_enabled album;;
  click album;;
  waitForLoadState NetworkIdle;;
  page_url.

(** The [for ... of albumPageIndicators] loop: [break] on the first
    confirmed indicator, [continue] on any exception. *)
Fixpoint confirm_album_page (indicators : list locator) : M click_vars unit :=
  match indicators with
  | [] => ret tt
  | indicator :: rest =>
      stop <- try_catch
                (waitFor indicator 2000%N;;
                 pageTitle <- textContent indicator;;
                 expect_that "toMatch" pageTitle (Text.icontains album_title pageTitle);;
                 assign_confirmed true;;
                 ret true)
                (ret false);;
      if stop then ret tt else confirm_album_page rest
  end.

Definition step_click_album : M unit unit :=
  with_locals (ClickVars None false)
    (currentUrl <- open_album;;
     expect_that "toContain" currentUrl (Text.contains "/album/" currentUrl);;
     confirm_album_page albumPageIndicators;;
     screenshot "evidence/11-album-page-loaded.png").

(** *** Locate and click the main album play button (lines 411-491) *)

Record play_vars : Type := PlayVars {
  mainPlayButton : option locator;
  strategyUsed : string
}.

Definition assign_button (l : locator) : M play_vars unit :=
  fun s => (Ok tt, St (world s) (log s) (PlayVars (Some l) (strategyUsed (vars s)))).

Definition assign_strategy (name : string) : M play_vars unit :=
  fun s => (Ok tt, St (world s) (log s) (PlayVars (mainPlayButton (vars s)) name)).

Definition play_strategy1 : M play_vars unit :=
  assign_button playByRole;;
  inside <- count tracklistPlay;;
  let isInsideTracklist := 0 <? inside in
  shown <- isVisible playByRole;;
  if shown && negb isInsideTracklist
  then assign_strategy "role-based main play button"
  else throw (JsError "Main play button not found by role").

Definition play_strategy2 : M play_vars unit :=
  assign_button playByText;;
  expect_visible playByText;;
  assign_strategy "text-based main play button".

(** [for (let i = 0; i < buttonCount; i++)], with [remaining] the
    iterations left. *)
Fixpoint play_scan (remaining i : nat) : M play_vars unit :=
  match remaining with
  | 0 => ret tt
  | S remaining' =>
      let button := Nth allButtons i in
      buttonText <- textContent button;;
      hit <- (if String.eqb (Text.trim buttonText) "Play"
              then isVisible button else ret false);;
      if hit
      then assign_button button;;
           assign_strategy "fallback - first visible Play button"
      else play_scan remaining' (S i)
  end.

Definition play_strategy3 : M play_vars unit :=
  buttonCount <- count allButtons;;
  play_scan buttonCount 0;;
  v <- get_vars;;
  match mainPlayButton v with
  | None => throw (JsError "No suitable play button found with any strategy")
  | Some _ => ret tt
  end.

Definition locate_play : M play_vars unit :=
  try_catch play_strategy1 (try_catch play_strategy2 play_strategy3).

(** The validations between the chain and the click; they end with
    the button that is about to be clicked. *)
Definition play_checks : M play_vars locator :=
  v <- get_vars;;
  button <- deref (mainPlayButton v);;
  expect_visible button;;
  expect_enabled button;;
  buttonText <- textContent button;;
  buttonAriaLabel <- getAttribute button "aria-label";;
  screenshot "evidence/12-before-clicking-play.png";;
  ret button.

Definition play_body : M play_vars unit :=
  waitForLoadState NetworkIdle;;
  locate_play;;
  button <- play_checks;;
  click button.

Definition step_play : M unit unit :=
  with_locals (PlayVars None EmptyString) play_body.

(** *** Validate play action and handle authentication modal (lines 493-572) *)

(** The [for ... of alternativePortuguesePatterns] loop over the
    variable [alternativeFound]. *)
Fixpoint alternative_patterns (patterns : list string) : M bool unit :=
  match patterns with
  | [] => ret tt
  | pattern :: rest =>
      stop <- try_catch
                (waitFor (GetByText pattern false) 1000%N;;
                 set_vars true;;
                 contextText <- textContent (GetByText pattern false);;
                 ret true)
                (ret false);;
      if stop then ret tt else alternative_patterns rest
  end.

Definition auth_body : M bool unit :=
  try_catch
    (waitFor portugueseAuthText 5000%N;;
     expect_visible portugueseAuthText;;
     fullModalText <- textContent portugueseAuthText;;
     screenshot "evidence/13-portuguese-authentication-modal.png")
    (set_vars false;;
     alternative_patterns alternativePortuguesePatterns;;
     screenshot "evidence/14-authentication-state-analysis.png").

Definition step_auth_modal : M unit unit := with_locals false auth_body.

(** *** Final validation and cleanup (lines 574-601) *)

Definition step_final : M unit unit :=
  currentUrl <- page_url;;
  expect_that "toContain" currentUrl (Text.contains "open.spotify.com" currentUrl);;
  expect_that "toContain" currentUrl (Text.contains "/album/" currentUrl);;
  albumElementsCount <- count albumElements;;
  screenshot "evidence/15-test-completion-state.png".

(** *** The test *)

Definition journey : list (string * M unit unit) :=
  [ ("Navigate to Spotify Web homepage", step_navigate);
    ("Locate and validate language selection button", step_language_button);
    ("Open language selection menu", step_open_language_menu);
    ("Select Portuguese (Brazil) language option", step_select_portuguese);
    ("Validate language change took effect", step_validate_language);
    ("Locate and interact with search input field", step_search_input);
    ("Type search query for Pink Floyd", step_type_query);
    ("Wait for search results and locate The Dark Side of the Moon album",
     step_locate_album);
    ("Click on The Dark Side of the Moon album", step_click_album);
    ("Locate and click the main album play button", step_play);
    ("Validate play action and handle authentication modal", step_auth_modal);
    ("Final validation and cleanup", step_final) ].

(** How a step ended: it passed, an exception left it, or the
    runner's timeout ended the run inside it. *)
Inductive status : Type :=
| Passed
| Raised (e : error)
| Interrupted.

(** The body of the test: each [await test.step(...)] runs once; an
    exception leaving a step leaves the test. *)
Fixpoint run_steps (steps : list (string * M unit unit)) (s : st unit)
    : list (string * status) * st unit :=
  match steps with
  | [] => ([], s)
  | (name, body) :: rest =>
      match body s with
      | (Ok _, s') => let (reports, s'') := run_steps rest s' in
                      ((name, Passed) :: reports, s'')
      | (Throw e, s') => ([(name, Raised e)], s')
      | (TimedOut, s') => ([(name, Interrupted)], s')
      end
  end.

(** The outcome of the run: Verified when every step passed. *)
Inductive verdict : Type := Verified | Failed.

Definition passed (r : string * status) : bool :=
  match snd r with
  | Passed => true
  | _ => false
  end.

Definition verdict_of (steps : list (string * M unit unit))
    (reports : list (string * status)) : verdict :=
  if (List.length reports =? List.length steps) && forallb passed reports
  then Verified else Failed.

Definition run_test (w : state B) : verdict * list (string * status) * st unit :=
  match before_each (St w [] tt) with
  | (Ok _, s) => let (reports, s') := run_steps journey s in
                 (verdict_of journey reports, reports, s')
  | (_, s) => (Failed, [], s)
  end.

(** ** Vocabulary of the properties *)

(** [ticks n w]: the browser state after [n] milliseconds without
    test input. *)
Fixpoint ticks (n : nat) (w : state B) : state B :=
  match n with
  | 0 => w
  | S n' => ticks n' (tick B w)
  end.

(** The locator resolves to one element, and it is visible. *)
Definition shows (p : page) (l : locator) : bool :=
  match resolve p l with
  | [e] => visible e
  | _ => false
  end.

(** A locator narrowed by [first()] or [nth(i)]. *)
Definition narrowed (l : locator) : Prop :=
  (exists b, l = First b) \/ (exists b i, l = Nth b i).

(** [waitFor] and [expect(...).toBeVisible()] share this shape. *)
Definition await_shown {L : Type} (q : query) (l : locator) (t : N) : M L unit :=
  locator_query q l (Some t) (strict (fun e => when_ (visible e))) yes.

(** A block is quiet when the browser state at its end is the state
    at its start plus elapsed time, and everything it logged is a
    query. *)
Definition quiet {L A : Type} (m : M L A) : Prop :=
  forall s r s', m s = (r, s') ->
    exists k evs, world s' = ticks k (world s) /\
                  log s' = log s ++ evs /\
                  forallb is_query evs = true.

(** A block is safe when no exception leaves it. *)
Definition safe {L A : Type} (m : M L A) : Prop :=
  forall s e s', m s <> (Throw e, s').

(** The log entries of waits that lapsed, one per locator. *)
Definition lapsed (t : N) (ls : list locator) : list event :=
  map (fun l => EvQuery (QWaitFor t) l false) ls.

(** The strategies of [locate_album] in the order of the source:
    locator, timeout of its wait, and the name kept in
    [selectorUsed]. *)
Definition album_strategies : list (locator * N * string) :=
  [ (albumExact, 5000%N, "exact text match");
    (albumPartial, 3000%N, "partial text match");
    (albumTitleAttr, 3000%N, "title attribute");
    (albumCard, 3000%N, "data-testid + text filter fallback") ].

(** The log entry of one strategy's wait. *)
Definition probe_event (ok : bool) (c : locator * N * string) : event :=
  EvQuery (QWaitFor (snd (fst c))) (fst (fst c)) ok.

(** Nested [try]/[catch] over a non-empty list of strategies: try
    the head; on an exception go on with the rest; the last strategy
    is outside any [try].  [locate_album] is this function on
    [album_strategies] (lemma [locate_album_unfold]). *)
Fixpoint first_confirmed (c : locator * N * string)
    (rest : list (locator * N * string)) : M album_vars unit :=
  match rest with
  | [] => album_strategy (fst (fst c)) (snd (fst c)) (snd c)
  | c' :: rest' =>
      try_catch (album_strategy (fst (fst c)) (snd (fst c)) (snd c))
        (first_confirmed c' rest')
  end.

(** The names the play-button chain keeps in [strategyUsed]. *)
Definition role_based : string := "role-based main play button".
Definition text_based : string := "text-based main play button".
Definition fallback_scan : string := "fallback - first visible Play button".

(** What strategy 1 reads: whether any [Play] button sits in the
    tracklist area, and whether the first page-wide [Play] button is
    visible. *)
Definition inside_tracklist (p : page) : bool :=
  0 <? List.length (resolve p tracklistPlay).

(** The two log entries of strategy 1. *)
Definition strategy1_events (p : page) : list event :=
  [ EvQuery QCount tracklistPlay (inside_tracklist p);
    EvQuery QIsVisible playByRole (shows p playByRole) ].

(** The condition of the [if] of strategy 1. *)
Definition strategy1_accepts (p : page) : bool :=
  shows p playByRole && negb (inside_tracklist p).


(** The title of the step that opens the album. *)
Definition click_album_title : string := "Click on The Dark Side of the Moon album".

(** *** Vocabulary of the further properties *)


(** The test of one iteration of the scan of strategy 3. *)
Definition is_play (e : element) : bool :=
  String.eqb (Text.trim (text e)) "Play" && visible e.

(** The index, counted from [i], of the first element that passes
    the test of the scan. *)
Fixpoint first_play (els : list element) (i : nat) : option nat :=
  match els with
  | [] => None
  | e :: rest => if is_play e then Some i else first_play rest (S i)
  end.

(** The variables the scan leaves. *)
Definition scan_result (els : list element) (v : play_vars) : play_vars :=
  match first_play els 0 with
  | Some j => PlayVars (Some (Nth allButtons j)) fallback_scan
  | None => v
  end.

(** A block names [b] when every exception that leaves it is an error
    of a call on the locator [b], and it keeps the step's variables. *)
Definition names {L A : Type} (b : locator) (m : M L A) : Prop :=
  forall s r s', m s = (r, s') ->
    vars s' = vars s /\
    forall e, r = Throw e -> exists f q, e = LocatorError f q b.

(** The calls of a log that act on the browser. *)
Definition actions (evs : list event) : list event :=
  filter (fun ev => negb (is_query ev)) evs.

(** One expected action: a given one, or a click on some locator. *)
Inductive shape : Type :=
| Exactly (ev : event)
| AnyClick.

Definition fit (sh : shape) (ev : event) : Prop :=
  match sh with
  | Exactly e => ev = e
  | AnyClick => exists l, ev = EvClick l
  end.

(** The actions are the expected ones, one for one and in order. *)
Definition fits (script : list shape) (done : list event) : Prop :=
  Forall2 fit script done.

(** The actions are the first ones of the script. *)
Definition fits_prefix (script : list shape) (done : list event) : Prop :=
  fits (firstn (List.length done) script) done.

(** A block acts by a script when the actions it logs are the first
    ones of the script, and all of them when it returns a value. *)
Definition acts {L A : Type} (m : M L A) (script : list shape) : Prop :=
  forall s r s', m s = (r, s') ->
    exists evs, log s' = log s ++ evs /\
                fits_prefix script (actions evs) /\
                ((exists a, r = Ok a) -> fits script (actions evs)).

(** The actions of the hook and of each step, in the order of the
    source. *)
Definition hook_script : list shape :=
  [ Exactly EvClearCookies; Exactly (EvSetViewport 1366%N 768%N) ].

Definition step_scripts : list (list shape) :=
  [ [ Exactly (EvGoto "https://open.spotify.com/") ];
    [];
    [ Exactly (EvClick languageButton) ];
    [ Exactly (EvClick ptBROption) ];
    [];
    [ Exactly (EvClick searchInput) ];
    [ Exactly (EvClear searchInput); Exactly (EvFill searchInput searchQuery) ];
    [];
    [ AnyClick ];
    [ AnyClick ];
    [];
    [] ].

Definition journey_script : list shape := hook_script ++ List.concat step_scripts.

(** A log entry of a wait that was answered affirmatively. *)
Definition seen_wait (ev : event) : bool :=
  match ev with
  | EvQuery (QWaitFor _) _ true => true
  | _ => false
  end.

(** The two screenshots of the step that opens the language menu. *)
Definition menu_opened_shot : event :=
  EvScreenshot "evidence/03-language-selection-opened.png".
Definition menu_result_shot : event :=
  EvScreenshot "evidence/03-language-click-result.png".

(** ** Reasoning about runs *)

Lemma ticks_add (a b : nat) (w : state B) :
  ticks (a + b) w = ticks b (ticks a w).
Proof.
  revert w; induction a as [|a IH]; intros w; simpl; [reflexivity|apply IH].
Qed.

Lemma ticks_succ (n : nat) (w : state B) :
  ticks (S n) w = tick B (ticks n w).
Proof.
  revert w; induction n as [|n IH]; intros w; [reflexivity|].
  change (ticks (S (S n)) w) with (ticks (S n) (tick B w)).
  rewrite IH; reflexivity.
Qed.

Lemma poll_loop_spec {A : Type} (n : nat) (probe : page -> poll A) (w : state B) :
  exists k, k <= n /\
    poll_loop n probe w = (probe (render B (ticks k w)), ticks k w) /\
    (forall j, j < k -> probe (render B (ticks j w)) = Pending) /\
    (probe (render B (ticks k w)) = Pending -> k = n).
Proof.
  revert w; induction n as [|n IH]; intros w.
  - exists 0; simpl. split; [lia|]. split.
    + destruct (probe (render B w)); reflexivity.
    + split; [intros j Hj; lia|reflexivity].
  - simpl. destruct (probe (render B w)) eqn:E.
    + exists 0; simpl; rewrite E. split; [lia|]. split; [reflexivity|].
      split; [intros j Hj; lia|discriminate].
    + destruct (IH (tick B w)) as (k & Hk & Hrun & Hbefore & Hlast).
      exists (S k); simpl. split; [lia|]. split; [exact Hrun|]. split.
      * intros [|j] Hj; simpl; [exact E|apply Hbefore; lia].
      * intros HP; f_equal; auto.
    + exists 0; simpl; rewrite E. split; [lia|]. split; [reflexivity|].
      split; [intros j Hj; lia|discriminate].
Qed.

(** Every call on a locator: what it returns, what it logs and how
    much time it took. *)
Lemma locator_query_cases {L A : Type} (q : query) (l : locator)
    (timeout : option N) (probe : list element -> poll A)
    (affirm : A -> bool) (s : st L) :
  exists k, k <= budget_of timeout /\
    (forall j, j < k -> probe (resolve (render B (ticks j (world s))) l) = Pending) /\
    match probe (resolve (render B (ticks k (world s))) l) with
    | Ready a =>
        locator_query q l timeout probe affirm s
        = (Ok a, emit s (EvQuery q l (affirm a)) (ticks k (world s)))
    | Violation n =>
        locator_query q l timeout probe affirm s
        = (Throw (LocatorError (StrictViolation n) q l),
           emit s (EvQuery q l false) (ticks k (world s)))
    | Pending =>
        k = budget_of timeout /\
        locator_query q l timeout probe affirm s
        = (lapse timeout (LocatorError Timeout q l),
           emit s (EvQuery q l false) (ticks k (world s)))
    end.
Proof.
  destruct (poll_loop_spec (budget_of timeout)
              (fun p => probe (resolve p l)) (world s))
    as (k & Hk & Hrun & Hbefore & Hlast).
  exists k; split; [exact Hk|]; split; [exact Hbefore|].
  unfold locator_query; rewrite Hrun.
  destruct (probe (resolve (render B (ticks k (world s))) l)); auto.
Qed.

(** *** Immediate calls *)

Lemma count_now {L : Type} (l : locator) (s : st L) :
  count l s
  = (Ok (List.length (resolve (render B (world s)) l)),
     emit s (EvQuery QCount l (0 <? List.length (resolve (render B (world s)) l)))
       (world s)).
Proof. reflexivity. Qed.

Lemma resolve_first_short (p : page) (l : locator) :
  resolve p (First l) = [] \/ exists e, resolve p (First l) = [e].
Proof.
  simpl. destruct (resolve p l) as [|e rest]; simpl; [left|right; exists e]; reflexivity.
Qed.

Lemma resolve_nth_short (p : page) (l : locator) (i : nat) :
  resolve p (Nth l i) = [] \/ exists e, resolve p (Nth l i) = [e].
Proof.
  simpl. destruct (nth_error (resolve p l) i) as [e|]; [right; exists e|left]; reflexivity.
Qed.

Lemma resolve_narrowed (p : page) (l : locator) :
  narrowed l -> resolve p l = [] \/ exists e, resolve p l = [e].
Proof.
  intros [[b ->]|[b [i ->]]]; [apply resolve_first_short|apply resolve_nth_short].
Qed.

Lemma isVisible_now {L : Type} (l : locator) (s : st L) :
  narrowed l ->
  isVisible l s
  = (Ok (shows (render B (world s)) l),
     emit s (EvQuery QIsVisible l (shows (render B (world s)) l)) (world s)).
Proof.
  intros Hn. unfold isVisible, locator_query, shows; simpl.
  destruct (resolve_narrowed (render B (world s)) l Hn) as [E|[e E]];
    rewrite E; reflexivity.
Qed.

Arguments poll_loop : simpl never.

(** *** Waiting for a locator to show *)

Lemma strict_shows (p : page) (l : locator) :
  strict (fun e => when_ (visible e)) (resolve p l) = Ready tt <-> shows p l = true.
Proof.
  unfold shows, strict, when_.
  destruct (resolve p l) as [|e [|e' rest]]; try (split; discriminate).
  destruct (visible e); split; intros H; try reflexivity; discriminate.
Qed.

Lemma strict_pending_hides (p : page) (l : locator) :
  strict (fun e => when_ (visible e)) (resolve p l) = Pending -> shows p l = false.
Proof.
  unfold shows, strict, when_.
  destruct (resolve p l) as [|e [|e' rest]]; try reflexivity; try discriminate.
  destruct (visible e); [discriminate|reflexivity].
Qed.

Lemma await_shown_cases {L : Type} (q : query) (l : locator) (t : N) (s : st L) :
  exists k, k <= N.to_nat t /\
    (forall j, j < k -> shows (render B (ticks j (world s))) l = false) /\
    ((shows (render B (ticks k (world s))) l = true /\
      await_shown q l t s = (Ok tt, emit s (EvQuery q l true) (ticks k (world s))))
     \/
     (shows (render B (ticks k (world s))) l = false /\
      exists f, await_shown q l t s
                = (Throw (LocatorError f q l),
                   emit s (EvQuery q l false) (ticks k (world s))))).
Proof.
  destruct (locator_query_cases q l (Some t)
              (strict (fun e => when_ (visible e))) yes s)
    as (k & Hk & Hbefore & Hrun).
  exists k; split; [exact Hk|]; split.
  - intros j Hj; apply strict_pending_hides, Hbefore, Hj.
  - destruct (strict (fun e => when_ (visible e))
                (resolve (render B (ticks k (world s))) l)) as [[]| |n] eqn:E.
    + left; split; [apply strict_shows, E|exact Hrun].
    + right; split; [apply strict_pending_hides, E|].
      destruct Hrun as [_ Hrun]; exists Timeout; exact Hrun.
    + right; split.
      * destruct (shows (render B (ticks k (world s))) l) eqn:Es; [|reflexivity].
        apply strict_shows in Es; congruence.
      * exists (StrictViolation n); exact Hrun.
Qed.

(** If the locator does not show during the whole wait, the wait
    fails with an exception. *)
Lemma await_shown_unseen {L : Type} (q : query) (l : locator) (t : N) (s : st L) :
  (forall j, j <= N.to_nat t -> shows (render B (ticks j (world s))) l = false) ->
  exists k f, k <= N.to_nat t /\
    await_shown q l t s
    = (Throw (LocatorError f q l), emit s (EvQuery q l false) (ticks k (world s))).
Proof.
  intros Hunseen.
  destruct (await_shown_cases q l t s) as (k & Hk & _ & [[Hs _]|[_ [f Hrun]]]).
  - rewrite Hunseen in Hs by exact Hk; discriminate.
  - exists k, f; split; [exact Hk|exact Hrun].
Qed.

(** *** Read-only blocks and blocks that cannot raise *)

Lemma quiet_ret {L A : Type} (a : A) : quiet (@ret L A a).
Proof.
  intros s r s' E; inversion E; subst. exists 0, []; simpl; rewrite app_nil_r; auto.
Qed.

Lemma quiet_throw {L A : Type} (e : error) : quiet (@throw L A e).
Proof.
  intros s r s' E; inversion E; subst. exists 0, []; simpl; rewrite app_nil_r; auto.
Qed.

Lemma quiet_step {L : Type} (s s1 s2 : st L) (k1 k2 : nat) (ev1 ev2 : list event) :
  world s1 = ticks k1 (world s) -> log s1 = log s ++ ev1 -> forallb is_query ev1 = true ->
  world s2 = ticks k2 (world s1) -> log s2 = log s1 ++ ev2 -> forallb is_query ev2 = true ->
  exists k evs, world s2 = ticks k (world s) /\ log s2 = log s ++ evs /\
                forallb is_query evs = true.
Proof.
  intros W1 L1 Q1 W2 L2 Q2. exists (k1 + k2), (ev1 ++ ev2).
  rewrite W2, W1, L2, L1, ticks_add, app_assoc, forallb_app, Q1, Q2; auto.
Qed.

Lemma quiet_bind {L A C : Type} (m : M L A) (k : A -> M L C) :
  quiet m -> (forall a, quiet (k a)) -> quiet (bind m k).
Proof.
  intros Hm Hk s r s' E. unfold bind in E.
  destruct (m s) as [[a|e|] s1] eqn:E1.
  - destruct (Hm _ _ _ E1) as (k1 & ev1 & W1 & L1 & Q1).
    destruct (Hk a _ _ _ E) as (k2 & ev2 & W2 & L2 & Q2).
    eapply quiet_step; eauto.
  - inversion E; subst; eapply Hm; eauto.
  - inversion E; subst; eapply Hm; eauto.
Qed.

Lemma quiet_try {L A : Type} (m h : M L A) :
  quiet m -> quiet h -> quiet (try_catch m h).
Proof.
  intros Hm Hh s r s' E. unfold try_catch in E.
  destruct (m s) as [[a|e|] s1] eqn:E1.
  - inversion E; subst; eapply Hm; eauto.
  - destruct (Hm _ _ _ E1) as (k1 & ev1 & W1 & L1 & Q1).
    destruct (Hh _ _ _ E) as (k2 & ev2 & W2 & L2 & Q2).
    eapply quiet_step; eauto.
  - inversion E; subst; eapply Hm; eauto.
Qed.

Lemma quiet_locator_query {L A : Type} (q : query) (l : locator)
    (timeout : option N) (probe : list element -> poll A) (affirm : A -> bool) :
  quiet (@locator_query L A q l timeout probe affirm).
Proof.
  intros s r s' E.
  destruct (locator_query_cases q l timeout probe affirm s) as (k & _ & _ & H).
  destruct (probe (resolve (render B (ticks k (world s))) l));
    [|destruct H as [_ H]|]; rewrite H in E; inversion E; subst;
    exists k; eexists; simpl; (split; [reflexivity|split; reflexivity]).
Qed.

Lemma quiet_page_wait {L : Type} (q : page_query) (timeout : option N)
    (cond : page -> bool) :
  quiet (@page_wait L q timeout cond).
Proof.
  intros s r s' E. unfold page_wait in E.
  destruct (poll_loop_spec (budget_of timeout) (fun p => when_ (cond p)) (world s))
    as (k & _ & Hrun & _).
  rewrite Hrun in E.
  destruct (when_ (cond (render B (ticks k (world s))))); inversion E; subst;
    exists k; eexists; simpl; (split; [reflexivity|split; reflexivity]).
Qed.

Lemma quiet_logged {L A : Type} (m : M L A) (ev : event) :
  is_query ev = true ->
  (forall s, exists r, m s = (r, emit s ev (world s))) ->
  quiet m.
Proof.
  intros Hq H s r s' E. destruct (H s) as [r0 E0]. rewrite E0 in E.
  inversion E; subst. exists 0, [ev]; simpl; rewrite Hq; auto.
Qed.

Lemma quiet_screenshot {L : Type} (path : string) : quiet (@screenshot L path).
Proof.
  apply quiet_logged with (ev := EvScreenshot path); [reflexivity|].
  intros s; eexists; reflexivity.
Qed.

Lemma quiet_page_url {L : Type} : quiet (@page_url L).
Proof.
  apply quiet_logged with (ev := EvPage PUrl true); [reflexivity|].
  intros s; eexists; reflexivity.
Qed.

(** Blocks that only read or write the step's variables. *)
Lemma quiet_local {L A : Type} (m : M L A) :
  (forall s, exists r v, m s = (r, St (world s) (log s) v)) -> quiet m.
Proof.
  intros H s r s' E. destruct (H s) as (r0 & v & E0). rewrite E0 in E.
  inversion E; subst. exists 0, []; simpl; rewrite app_nil_r; auto.
Qed.

Lemma quiet_get_vars {L : Type} : quiet (@get_vars L).
Proof. apply quiet_local; intros [w lg v]; do 2 eexists; reflexivity. Qed.

Lemma quiet_set_vars {L : Type} (v : L) : quiet (set_vars v).
Proof. apply quiet_local; intros s; do 2 eexists; reflexivity. Qed.

Lemma quiet_assign_album (l : locator) : quiet (assign_album l).
Proof. apply quiet_local; intros s; do 2 eexists; reflexivity. Qed.

Lemma quiet_assign_selector (n : string) : quiet (assign_selector n).
Proof. apply quiet_local; intros s; do 2 eexists; reflexivity. Qed.

Lemma quiet_assign_button (l : locator) : quiet (assign_button l).
Proof. apply quiet_local; intros s; do 2 eexists; reflexivity. Qed.

Lemma quiet_assign_strategy (n : string) : quiet (assign_strategy n).
Proof. apply quiet_local; intros s; do 2 eexists; reflexivity. Qed.

Lemma quiet_expect_that {L : Type} (m r : string) (b : bool) :
  quiet (@expect_that L m r b).
Proof. destruct b; [apply quiet_ret|apply quiet_throw]. Qed.

Lemma quiet_deref {L : Type} (v : option locator) : quiet (@deref L v).
Proof. destruct v; [apply quiet_ret|apply quiet_throw]. Qed.

Lemma quiet_with_locals {L A : Type} (init : L) (m : M L A) :
  quiet m -> quiet (with_locals init m).
Proof.
  intros Hm s r s' E. unfold with_locals in E.
  destruct (m (St (world s) (log s) init)) as [r1 s1] eqn:E1.
  inversion E; subst; simpl.
  destruct (Hm _ _ _ E1) as (k & evs & W & Lg & Q). eauto.
Qed.

Create HintDb quiet.
#[local] Hint Unfold waitFor expect_visible expect_enabled expect_editable
  expect_focused expect_value isVisible count textContent getAttribute
  waitForLoadState expect_url expect_title_i await_shown : quiet.

(** *** Safety *)

Lemma safe_ret {L A : Type} (a : A) : safe (@ret L A a).
Proof. intros s e s' E; discriminate. Qed.

Lemma safe_bind {L A C : Type} (m : M L A) (k : A -> M L C) :
  safe m -> (forall a, safe (k a)) -> safe (bind m k).
Proof.
  intros Hm Hk s e s' E. unfold bind in E.
  destruct (m s) as [[a|e1|] s1] eqn:E1.
  - exact (Hk a _ _ _ E).
  - exact (Hm _ _ _ E1).
  - discriminate.
Qed.

Lemma safe_try {L A : Type} (m h : M L A) : safe h -> safe (try_catch m h).
Proof.
  intros Hh s e s' E. unfold try_catch in E.
  destruct (m s) as [[a|e1|] s1] eqn:E1; try discriminate.
  exact (Hh _ _ _ E).
Qed.

Lemma safe_screenshot {L : Type} (path : string) : safe (@screenshot L path).
Proof. intros s e s' E; discriminate. Qed.

Lemma safe_set_vars {L : Type} (v : L) : safe (set_vars v).
Proof. intros s e s' E; discriminate. Qed.

Lemma safe_get_vars {L : Type} : safe (@get_vars L).
Proof. intros s e s' E; discriminate. Qed.

Lemma safe_with_locals {L A : Type} (init : L) (m : M L A) :
  safe m -> safe (with_locals init m).
Proof.
  intros Hm s e s' E. unfold with_locals in E.
  destruct (m (St (world s) (log s) init)) as [r1 s1] eqn:E1.
  inversion E; subst. exact (Hm _ _ _ E1).
Qed.

(** ** The album chain *)

Lemma album_strategy_cases (l : locator) (t : N) (name : string) (s : st album_vars) :
  exists k,
    (shows (render B (ticks k (world s))) l = true /\
     album_strategy l t name s
     = (Ok tt, St (ticks k (world s)) (log s ++ [EvQuery (QWaitFor t) l true])
                  (AlbumVars (Some l) name)))
    \/
    (exists f,
       album_strategy l t name s
       = (Throw (LocatorError f (QWaitFor t) l),
          St (ticks k (world s)) (log s ++ [EvQuery (QWaitFor t) l false])
             (AlbumVars (Some l) (selectorUsed (vars s))))).
Proof.
  unfold album_strategy, bind, assign_album.
  change (@waitFor album_vars l t) with (@await_shown album_vars (QWaitFor t) l t).
  destruct (await_shown_cases (QWaitFor t) l t
              (St (world s) (log s) (AlbumVars (Some l) (selectorUsed (vars s)))))
    as (k & _ & _ & [[Hs Hrun]|[_ [f Hrun]]]); exists k.
  - left; split; [exact Hs|]. rewrite Hrun; reflexivity.
  - right; exists f. rewrite Hrun; reflexivity.
Qed.

Lemma locate_album_unfold :
  locate_album
  = first_confirmed (albumExact, 5000%N, "exact text match")
      [ (albumPartial, 3000%N, "partial text match");
        (albumTitleAttr, 3000%N, "title attribute");
        (albumCard, 3000%N, "data-testid + text filter fallback") ].
Proof. reflexivity. Qed.

(** Case by case: [n] strategies lapsed, then strategy [c'] either
    showed its element (and the chain stopped there) or was the last
    one and lapsed too. *)
Lemma first_confirmed_cases (c : locator * N * string)
    (rest : list (locator * N * string)) (s : st album_vars) :
  exists n c' k,
    nth_error (c :: rest) n = Some c' /\
    let evs ok := map (probe_event false) (firstn n (c :: rest))
                  ++ [probe_event ok c'] in
    ((shows (render B (ticks k (world s))) (fst (fst c')) = true /\
      first_confirmed c rest s
      = (Ok tt, St (ticks k (world s)) (log s ++ evs true)
                   (AlbumVars (Some (fst (fst c'))) (snd c'))))
     \/
     (S n = List.length (c :: rest) /\
      exists f,
        first_confirmed c rest s
        = (Throw (LocatorError f (QWaitFor (snd (fst c'))) (fst (fst c'))),
           St (ticks k (world s)) (log s ++ evs false)
              (AlbumVars (Some (fst (fst c'))) (selectorUsed (vars s)))))).
Proof.
  revert c s; induction rest as [|c1 rest IH]; intros c s.
  - destruct (album_strategy_cases (fst (fst c)) (snd (fst c)) (snd c) s)
      as (k & [[Hs Hrun]|[f Hrun]]); exists 0, c, k; (split; [reflexivity|]).
    + left; split; [exact Hs|exact Hrun].
    + right; split; [reflexivity|]. exists f; exact Hrun.
  - cbn [first_confirmed]. unfold try_catch.
    destruct (album_strategy_cases (fst (fst c)) (snd (fst c)) (snd c) s)
      as (k & [[Hs Hrun]|[f Hrun]]); rewrite Hrun.
    + exists 0, c, k; split; [reflexivity|]. left; split; [exact Hs|reflexivity].
    + match goal with |- context [first_confirmed c1 rest ?s1] =>
        destruct (IH c1 s1) as (n & c' & k' & Hn & Hc)
      end.
      cbn [world log vars selectorUsed] in Hc.
      exists (S n), c', (k + k'); split; [exact Hn|].
      rewrite ticks_add.
      cbn [firstn map]. change (probe_event false c) with
        (EvQuery (QWaitFor (snd (fst c))) (fst (fst c)) false).
      destruct Hc as [[Hs' Hrun']|[Hlen [f' Hrun']]].
      * left; split; [exact Hs'|]. rewrite Hrun', <- app_assoc; reflexivity.
      * right; split; [cbn [List.length] in *; lia|].
        exists f'. rewrite Hrun', <- app_assoc; reflexivity.
Qed.

Lemma locate_album_cases (s : st album_vars) :
  exists n c k,
    nth_error album_strategies n = Some c /\
    let evs ok := map (probe_event false) (firstn n album_strategies)
                  ++ [probe_event ok c] in
    ((shows (render B (ticks k (world s))) (fst (fst c)) = true /\
      locate_album s
      = (Ok tt, St (ticks k (world s)) (log s ++ evs true)
                   (AlbumVars (Some (fst (fst c))) (snd c))))
     \/
     (n = 3 /\
      exists f,
        locate_album s
        = (Throw (LocatorError f (QWaitFor (snd (fst c))) (fst (fst c))),
           St (ticks k (world s)) (log s ++ evs false)
              (AlbumVars (Some (fst (fst c))) (selectorUsed (vars s)))))).
Proof.
  rewrite locate_album_unfold.
  destruct (first_confirmed_cases (albumExact, 5000%N, "exact text match")
              [ (albumPartial, 3000%N, "partial text match");
                (albumTitleAttr, 3000%N, "title attribute");
                (albumCard, 3000%N, "data-testid + text filter fallback") ] s)
    as (n & c & k & Hn & Hc).
  exists n, c, k. split; [exact Hn|].
  destruct Hc as [Hc|[Hlen Hc]]; [left; exact Hc|right].
  split; [cbn [List.length] in Hlen; lia|exact Hc].
Qed.

(** ** The play-button chain *)

Lemma narrowed_first (b : locator) : narrowed (First b).
Proof. left; exists b; reflexivity. Qed.

Lemma narrowed_nth (b : locator) (i : nat) : narrowed (Nth b i).
Proof. right; exists b, i; reflexivity. Qed.

Lemma play_strategy1_run (s : st play_vars) :
  let p := render B (world s) in
  play_strategy1 s
  = if strategy1_accepts p
    then (Ok tt, St (world s) (log s ++ strategy1_events p)
                    (PlayVars (Some playByRole) role_based))
    else (Throw (JsError "Main play button not found by role"),
          St (world s) (log s ++ strategy1_events p)
             (PlayVars (Some playByRole) (strategyUsed (vars s)))).
Proof.
  intros p. unfold play_strategy1, bind, assign_button.
  rewrite count_now. cbv beta iota.
  rewrite isVisible_now by apply narrowed_first.
  unfold strategy1_accepts, strategy1_events, inside_tracklist, emit.
  cbn [world log vars]. fold p.
  destruct (shows p playByRole && negb (0 <? List.length (resolve p tracklistPlay)));
    unfold assign_strategy, throw; cbn [world log vars mainPlayButton strategyUsed];
    rewrite <- app_assoc; reflexivity.
Qed.

Lemma play_strategy2_cases (s : st play_vars) :
  exists k,
    (shows (render B (ticks k (world s))) playByText = true /\
     play_strategy2 s
     = (Ok tt, St (ticks k (world s))
                  (log s ++ [EvQuery QExpectVisible playByText true])
                  (PlayVars (Some playByText) text_based)))
    \/
    (exists f,
       play_strategy2 s
       = (Throw (LocatorError f QExpectVisible playByText),
          St (ticks k (world s))
             (log s ++ [EvQuery QExpectVisible playByText false])
             (PlayVars (Some playByText) (strategyUsed (vars s))))).
Proof.
  unfold play_strategy2, bind, assign_button.
  change (@expect_visible play_vars playByText)
    with (@await_shown play_vars QExpectVisible playByText expect_timeout).
  destruct (await_shown_cases QExpectVisible playByText expect_timeout
              (St (world s) (log s) (PlayVars (Some playByText) (strategyUsed (vars s)))))
    as (k & _ & _ & [[Hs Hrun]|[_ [f Hrun]]]); exists k.
  - left; split; [exact Hs|]. rewrite Hrun; reflexivity.
  - right; exists f. rewrite Hrun; reflexivity.
Qed.

(** Reading the text of a narrowed locator: the text of its element,
    or the end of the run if no element ever attaches. *)
Lemma textContent_narrowed {L : Type} (l : locator) (s : st L) :
  narrowed l ->
  exists k,
    (exists e, resolve (render B (ticks k (world s))) l = [e] /\
               textContent l s
               = (Ok (text e), emit s (EvQuery QTextContent l true) (ticks k (world s))))
    \/
    textContent l s
    = (TimedOut, emit s (EvQuery QTextContent l false) (ticks k (world s))).
Proof.
  intros Hn. unfold textContent.
  destruct (locator_query_cases QTextContent l None
              (strict (fun e => Ready (text e))) yes s) as (k & _ & _ & Hrun).
  exists k.
  destruct (resolve_narrowed (render B (ticks k (world s))) l Hn) as [E|[e E]];
    rewrite E in Hrun; cbn [strict] in Hrun.
  - right; destruct Hrun as [_ Hrun]; exact Hrun.
  - left; exists e; split; [exact E|exact Hrun].
Qed.

(** The scan either leaves the variables alone or stops at a button
    whose trimmed text is [Play] and which is visible. *)
Lemma play_scan_spec (n i : nat) (s : st play_vars) (r : outcome unit) (s' : st play_vars) :
  play_scan n i s = (r, s') ->
  (forall e, r <> Throw e) /\
  (vars s' = vars s \/
   exists j e,
     r = Ok tt /\
     vars s' = PlayVars (Some (Nth allButtons j)) fallback_scan /\
     resolve (render B (world s')) (Nth allButtons j) = [e] /\
     visible e = true /\ Text.trim (text e) = "Play").
Proof.
  revert i s; induction n as [|n IH]; intros i s E.
  - inversion E; subst; split; [discriminate|left; reflexivity].
  - cbn [play_scan] in E. unfold bind at 1 in E.
    destruct (textContent_narrowed (Nth allButtons i) s (narrowed_nth _ _))
      as (k & [(e & Hres & Hrun)|Hrun]); rewrite Hrun in E.
    2:{ inversion E; subst; split; [discriminate|left; reflexivity]. }
    unfold bind at 1 in E.
    destruct (String.eqb (Text.trim (text e)) "Play") eqn:Etxt.
    + rewrite isVisible_now in E by apply narrowed_nth.
      unfold shows in E. cbn [world log vars emit] in E. rewrite Hres in E.
      destruct (visible e) eqn:Ev.
      * inversion E; subst; split; [discriminate|right].
        exists i, e. cbn [world vars].
        apply String.eqb_eq in Etxt. auto.
      * apply IH in E. cbn [vars emit] in E. exact E.
    + unfold ret in E. apply IH in E. cbn [vars emit] in E. exact E.
Qed.

Lemma quiet_play_scan (n i : nat) : quiet (play_scan n i).
Proof.
  revert i; induction n as [|n IH]; intros i; cbn [play_scan].
  - apply quiet_ret.
  - apply quiet_bind; [unfold textContent; apply quiet_locator_query|intros txt].
    apply quiet_bind.
    + destruct (String.eqb (Text.trim txt) "Play");
        [unfold isVisible; apply quiet_locator_query|apply quiet_ret].
    + intros [|]; [|apply IH].
      apply quiet_bind; [apply quiet_assign_button|intros _; apply quiet_assign_strategy].
Qed.

Lemma play_strategy3_spec (s : st play_vars) (b : locator)
    (r : outcome unit) (s' : st play_vars) :
  mainPlayButton (vars s) = Some b ->
  play_strategy3 s = (r, s') ->
  (forall e, r <> Throw e) /\
  (vars s' = vars s \/
   exists j e,
     r = Ok tt /\
     vars s' = PlayVars (Some (Nth allButtons j)) fallback_scan /\
     resolve (render B (world s')) (Nth allButtons j) = [e] /\
     visible e = true /\ Text.trim (text e) = "Play").
Proof.
  intros Hb E. unfold play_strategy3 in E. unfold bind at 1 in E.
  rewrite count_now in E. unfold bind at 1 in E.
  match type of E with context [play_scan ?n 0 ?s1] =>
    destruct (play_scan n 0 s1) as [r1 s2] eqn:Escan
  end.
  apply play_scan_spec in Escan. cbn [vars emit] in Escan.
  destruct Escan as [Hsafe Hvars].
  destruct r1 as [[]|e|].
  - unfold bind, get_vars in E.
    assert (Hsome : exists b', mainPlayButton (vars s2) = Some b').
    { destruct Hvars as [Hv|(j & e & _ & Hv & _)]; rewrite Hv; cbn; eauto. }
    destruct Hsome as [b' Hb']. rewrite Hb' in E.
    inversion E; subst. split; [discriminate|exact Hvars].
  - exfalso; exact (Hsafe e eq_refl).
  - inversion E; subst. split; [discriminate|].
    destruct Hvars as [Hv|(j & e & Habs & _)]; [left; exact Hv|discriminate].
Qed.

(** The whole chain, case by case. *)
Lemma locate_play_cases (s : st play_vars) :
  let p := render B (world s) in
  if strategy1_accepts p
  then locate_play s
       = (Ok tt, St (world s) (log s ++ strategy1_events p)
                    (PlayVars (Some playByRole) role_based))
  else
    exists k,
      (shows (render B (ticks k (world s))) playByText = true /\
       locate_play s
       = (Ok tt, St (ticks k (world s))
                    (log s ++ strategy1_events p
                       ++ [EvQuery QExpectVisible playByText true])
                    (PlayVars (Some playByText) text_based)))
      \/
      (exists r s',
         locate_play s = (r, s') /\
         play_strategy3
           (St (ticks k (world s))
               (log s ++ strategy1_events p
                  ++ [EvQuery QExpectVisible playByText false])
               (PlayVars (Some playByText) (strategyUsed (vars s))))
         = (r, s') /\
         (forall e, r <> Throw e) /\
         (vars s' = PlayVars (Some playByText) (strategyUsed (vars s)) \/
          exists j e,
            r = Ok tt /\
            vars s' = PlayVars (Some (Nth allButtons j)) fallback_scan /\
            resolve (render B (world s')) (Nth allButtons j) = [e] /\
            visible e = true /\ Text.trim (text e) = "Play")).
Proof.
  intros p. pose proof (play_strategy1_run s) as H1. cbv zeta in H1. fold p in H1.
  unfold locate_play, try_catch.
  destruct (strategy1_accepts p); rewrite H1; [reflexivity|].
  match goal with |- context [play_strategy2 ?s1] =>
    destruct (play_strategy2_cases s1) as (k & [[Hs Hrun]|[f Hrun]]);
      rewrite Hrun; cbn [world log vars strategyUsed] in *
  end; exists k.
  - left; split; [exact Hs|]. rewrite <- app_assoc; reflexivity.
  - right. rewrite <- app_assoc.
    match goal with |- context [play_strategy3 ?s2] =>
      destruct (play_strategy3 s2) as [r s'] eqn:E3;
        destruct (play_strategy3_spec s2 playByText r s' eq_refl E3) as [Hsafe Hvars]
    end.
    exists r, s'; repeat split; auto.
Qed.

(** No exception leaves the play-button chain: the [throw] that ends
    strategy 3 is guarded by a variable that strategies 1 and 2 have
    already assigned. *)
Lemma locate_play_safe : safe locate_play.
Proof.
  intros s e s' E. pose proof (locate_play_cases s) as H. cbv zeta in H.
  destruct (strategy1_accepts (render B (world s))).
  - rewrite H in E; discriminate.
  - destruct H as (k & [[_ H]|(r & s2 & H & _ & Hsafe & _)]); rewrite H in E.
    + discriminate.
    + inversion E; subst. exact (Hsafe e eq_refl).
Qed.

(** *** Quiet blocks of the journey *)

Ltac quiet_tac :=
  repeat first
    [ apply quiet_ret | apply quiet_throw | apply quiet_locator_query
    | apply quiet_page_wait | apply quiet_screenshot | apply quiet_page_url
    | apply quiet_get_vars | apply quiet_set_vars | apply quiet_assign_album
    | apply quiet_assign_selector | apply quiet_assign_button
    | apply quiet_assign_strategy | apply quiet_expect_that | apply quiet_deref
    | apply quiet_play_scan
    | apply quiet_bind | apply quiet_try | apply quiet_with_locals
    | progress autounfold with quiet | progress cbv zeta
    | match goal with
      | |- quiet (if ?b then _ else _) => destruct b
      | |- quiet (match ?x with _ => _ end) => destruct x
      | |- forall _, quiet _ => intro
      end ].

Lemma quiet_locate_album : quiet locate_album.
Proof. unfold locate_album, album_strategy. quiet_tac. Qed.

Lemma quiet_locate_play : quiet locate_play.
Proof.
  unfold locate_play, play_strategy1, play_strategy2, play_strategy3. quiet_tac.
Qed.

Lemma quiet_step_locate_album : quiet step_locate_album.
Proof. unfold step_locate_album. quiet_tac; apply quiet_locate_album. Qed.

Lemma quiet_play_checks : quiet play_checks.
Proof. unfold play_checks. quiet_tac. Qed.

(** ** Soft probes *)

Ltac safe_tac :=
  repeat first
    [ apply safe_ret | apply safe_screenshot | apply safe_set_vars
    | apply safe_get_vars | apply safe_bind | apply safe_try
    | apply safe_with_locals
    | match goal with
      | |- safe (if ?b then _ else _) => destruct b
      | |- forall _, safe _ => intro
      end ].

Lemma waitFor_unseen {L : Type} (l : locator) (t : N) (s : st L) :
  (forall j, j <= N.to_nat t -> shows (render B (ticks j (world s))) l = false) ->
  exists k f, k <= N.to_nat t /\
    waitFor l t s
    = (Throw (LocatorError f (QWaitFor t) l),
       emit s (EvQuery (QWaitFor t) l false) (ticks k (world s))).
Proof. apply (await_shown_unseen (QWaitFor t) l t s). Qed.

Lemma safe_alternative_patterns (ps : list string) : safe (alternative_patterns ps).
Proof.
  induction ps as [|p ps IH]; cbn [alternative_patterns]; [apply safe_ret|].
  apply safe_bind; [apply safe_try, safe_ret|].
  intros [|]; [apply safe_ret|exact IH].
Qed.

Lemma safe_confirm_album_page (inds : list locator) : safe (confirm_album_page inds).
Proof.
  induction inds as [|i inds IH]; cbn [confirm_album_page]; [apply safe_ret|].
  apply safe_bind; [apply safe_try, safe_ret|].
  intros [|]; [apply safe_ret|exact IH].
Qed.

Lemma safe_auth_body : safe auth_body.
Proof.
  unfold auth_body. apply safe_try. apply safe_bind; [apply safe_set_vars|intros _].
  apply safe_bind; [apply safe_alternative_patterns|intros _; apply safe_screenshot].
Qed.


Lemma safe_suggestions_probe : safe suggestions_probe.
Proof. unfold suggestions_probe. safe_tac. Qed.


Lemma confirm_album_page_unseen (inds : list locator) (s : st click_vars) :
  (forall j, j <= List.length inds * N.to_nat 2000 ->
   forall l, In l inds -> shows (render B (ticks j (world s))) l = false) ->
  exists k, k <= List.length inds * N.to_nat 2000 /\
    confirm_album_page inds s
    = (Ok tt, St (ticks k (world s)) (log s ++ lapsed 2000 inds) (vars s)).
Proof.
  revert s; induction inds as [|i inds IH]; intros s Hunseen.
  - exists 0; split; [lia|]. cbn. rewrite app_nil_r. destruct s; reflexivity.
  - cbn [confirm_album_page]. unfold bind at 1, try_catch, bind at 1.
    destruct (waitFor_unseen i 2000 s) as (k1 & f & Hk1 & Hrun).
    { intros j Hj; apply Hunseen; [cbn [List.length Nat.mul]; lia|left; reflexivity]. }
    rewrite Hrun. unfold ret at 1.
    destruct (IH (emit s (EvQuery (QWaitFor 2000) i false) (ticks k1 (world s))))
      as (k2 & Hk2 & Hrest).
    { intros j Hj q Hq. cbn [world emit]. rewrite <- ticks_add.
      apply Hunseen; [cbn [List.length Nat.mul]; lia|right; exact Hq]. }
    exists (k1 + k2); split; [cbn [List.length Nat.mul]; lia|].
    rewrite Hrest. cbn [world log vars emit lapsed map].
    rewrite ticks_add, <- app_assoc. reflexivity.
Qed.


(** ** The sequence of steps *)




(** When every step is reported as passed, the last step returned
    normally, and the run ends in the state it left. *)
Lemma run_steps_last (pre : list (string * M unit unit)) (name : string)
    (body : M unit unit) (s : st unit) :
  List.length (fst (run_steps (pre ++ [(name, body)]) s))
  = List.length (pre ++ [(name, body)]) ->
  forallb passed (fst (run_steps (pre ++ [(name, body)]) s)) = true ->
  exists s0, body s0 = (Ok tt, snd (run_steps (pre ++ [(name, body)]) s)).
Proof.
  revert s; induction pre as [|[n b] pre IH]; intros s Hlen Hall.
  - cbn [app run_steps] in *. destruct (body s) as [[[]|e|] s1] eqn:E.
    + exists s; exact E.
    + discriminate.
    + discriminate.
  - cbn [app run_steps] in *. destruct (b s) as [[a|e|] s1].
    + specialize (IH s1).
      destruct (run_steps (pre ++ [(name, body)]) s1) as [reports s2].
      cbn [fst snd List.length forallb] in *.
      apply IH; [lia|]. apply andb_true_iff in Hall; tauto.
    + discriminate.
    + discriminate.
Qed.

Lemma before_each_ok (s : st unit) :
  exists s', before_each s = (Ok tt, s').
Proof. eexists; reflexivity. Qed.

Lemma step_final_ok (s s' : st unit) :
  step_final s = (Ok tt, s') ->
  world s' = world s /\
  Text.contains "open.spotify.com" (url (render B (world s))) = true /\
  Text.contains "/album/" (url (render B (world s))) = true.
Proof.
  unfold step_final, bind, page_url, expect_that. cbn [world emit].
  destruct (Text.contains "open.spotify.com" (url (render B (world s))));
    [|discriminate].
  destruct (Text.contains "/album/" (url (render B (world s))));
    [|discriminate].
  unfold ret. rewrite count_now. unfold screenshot. intros E.
  inversion E; subst; cbn; auto.
Qed.

(** ** The properties of the specification *)


(** C2, as the code has it.  When the album chain ends with an
    exception, the four strategies were attempted in the order of the
    source and each lapsed; the exception is the one raised by the
    wait of the last strategy, and the only locator it names is the
    last strategy's. *)
Theorem album_exhaustion_raises_last_error :
  forall (s : st album_vars) (e : error) (s' : st album_vars),
    locate_album s = (Throw e, s') ->
    (exists f, e = LocatorError f (QWaitFor 3000) albumCard) /\
    error_locators e = [albumCard] /\
    log s' = log s ++ map (probe_event false) album_strategies.
Proof.
  intros s e s' E.
  destruct (locate_album_cases s) as (n & c & k & Hn & [[_ Hrun]|[-> [f Hrun]]]);
    rewrite Hrun in E; [discriminate|].
  cbn in Hn. inversion Hn; subst c. inversion E; subst.
  split; [exists f; reflexivity|]. split; reflexivity.
Qed.

(** C3, as the code has it.  A run is Verified only if the last step
    found the URL of the page to contain both [open.spotify.com] and
    [/album/]; and no exception ever leaves the step that looks for
    the login prompt, so the verdict does not rest on the prompt. *)
Theorem verified_rests_on_url_not_on_prompt :
  (forall (w : state B) (reports : list (string * status)) (s' : st unit),
     run_test w = (Verified, reports, s') ->
     Text.contains "open.spotify.com" (url (render B (world s'))) = true /\
     Text.contains "/album/" (url (render B (world s'))) = true)
  /\
  (forall (s : st unit) (e : error) (s' : st unit),
     step_auth_modal s <> (Throw e, s')).
Proof.
  split.
  - intros w reports s' H. unfold run_test in H.
    destruct (before_each_ok (St w [] tt)) as [s0 E0]. rewrite E0 in H.
    destruct (run_steps journey s0) as [reps s1] eqn:E.
    inversion H as [[Hv Hr Hs]]. subst reps s1. clear H.
    unfold verdict_of in Hv.
    destruct ((List.length reports =? List.length journey) && forallb passed reports)
      eqn:Hb; [|discriminate].
    apply andb_true_iff in Hb. destruct Hb as [Hlen Hall].
    apply Nat.eqb_eq in Hlen.
    pose proof (run_steps_last (removelast journey)
                  "Final validation and cleanup" step_final s0) as Hlast.
    change (removelast journey ++ [("Final validation and cleanup", step_final)])
      with journey in Hlast.
    rewrite E in Hlast. cbn [fst snd] in Hlast.
    destruct (Hlast Hlen Hall) as [s2 Hfinal].
    apply step_final_ok in Hfinal. destruct Hfinal as (Hw & H1 & H2).
    rewrite Hw. split; assumption.
  - exact (safe_with_locals false auth_body safe_auth_body).
Qed.





(** C9.  In the step that opens the album, the check that the URL
    read after the click contains [/album/] is mandatory: when it does
    not hold the step raises the assertion error and the run stops at
    this step.  The confirmation of the title is soft: once the URL
    check holds no exception leaves the step, and when none of the four
    indicators shows during its 2000 ms the step passes. *)
Theorem album_url_is_mandatory_title_is_soft :
  forall (s : st unit) (u : string) (s1 : st click_vars),
    open_album (St (world s) (log s) (ClickVars None false)) = (Ok u, s1) ->
    (Text.contains "/album/" u = false ->
     step_click_album s
     = (Throw (ExpectError "toContain" u), St (world s1) (log s1) tt) /\
     forall rest,
       run_steps ((click_album_title, step_click_album) :: rest) s
       = ([(click_album_title, Raised (ExpectError "toContain" u))],
          St (world s1) (log s1) tt))
    /\
    (Text.contains "/album/" u = true ->
     (forall e s', step_click_album s <> (Throw e, s')) /\
     ((forall j, j <= N.to_nat 8000 -> forall l, In l albumPageIndicators ->
         shows (render B (ticks j (world s1))) l = false) ->
      exists s', step_click_album s = (Ok tt, s'))).
Proof.
  intros s u s1 Hopen. split; intros Hu.
  - assert (Hstep : step_click_album s
                    = (Throw (ExpectError "toContain" u), St (world s1) (log s1) tt)).
    { unfold step_click_album, with_locals. unfold bind at 1. rewrite Hopen.
      unfold bind at 1, expect_that. rewrite Hu. reflexivity. }
    split; [exact Hstep|]. intros rest. cbn [run_steps]. rewrite Hstep. reflexivity.
  - split.
    + intros e s' E. unfold step_click_album, with_locals in E.
      unfold bind at 1 in E. rewrite Hopen in E.
      unfold bind at 1, expect_that in E. rewrite Hu in E. unfold ret at 1 in E.
      match type of E with context [bind ?m ?k s1] =>
        destruct (bind m k s1) as [r s2] eqn:E2
      end.
      inversion E; subst.
      revert E2. apply safe_bind; [apply safe_confirm_album_page|].
      intros _; apply safe_screenshot.
    + intros Hunseen. unfold step_click_album, with_locals.
      unfold bind at 1. rewrite Hopen.
      unfold bind at 1, expect_that. rewrite Hu. unfold ret at 1.
      destruct (confirm_album_page_unseen albumPageIndicators s1) as (k & _ & Hrun).
      { intros j Hj l Hl. apply Hunseen; [|exact Hl].
        change (List.length albumPageIndicators) with 4 in Hj. lia. }
      unfold bind. rewrite Hrun. eexists; reflexivity.
Qed.

(** C10.  Whenever some button with text [Play] sits in the tracklist
    area, strategy 1 of the play-button chain raises, whatever its own
    candidate is and whether or not that candidate is visible, and the
    chain goes on with strategy 2 from the same page. *)
Theorem tracklist_play_rejects_strategy1 :
  forall s : st play_vars,
    resolve (render B (world s)) tracklistPlay <> [] ->
    exists s1,
      play_strategy1 s
      = (Throw (JsError "Main play button not found by role"), s1) /\
      world s1 = world s /\
      locate_play s = try_catch play_strategy2 play_strategy3 s1.
Proof.
  intros s Hin. pose proof (play_strategy1_run s) as H1. cbv zeta in H1.
  assert (Hrej : strategy1_accepts (render B (world s)) = false).
  { unfold strategy1_accepts, inside_tracklist.
    destruct (resolve (render B (world s)) tracklistPlay); [contradiction|].
    cbn. apply andb_false_r. }
  rewrite Hrej in H1. eexists. split; [exact H1|]. split; [reflexivity|].
  unfold locate_play. unfold try_catch at 1. rewrite H1. reflexivity.
Qed.

(** *** The click of the play step *)

Lemma bind_ok {L A C : Type} (m : M L A) (k : A -> M L C) (s : st L)
    (c : C) (s' : st L) :
  bind m k s = (Ok c, s') ->
  exists a s1, m s = (Ok a, s1) /\ k a s1 = (Ok c, s').
Proof.
  unfold bind. destruct (m s) as [[a|e|] s1]; intros E; try discriminate.
  exists a, s1; split; [reflexivity|exact E].
Qed.


Lemma quiet_log {L A : Type} (m : M L A) (s : st L) (r : outcome A) (s' : st L) :
  quiet m -> m s = (r, s') ->
  exists evs, log s' = log s ++ evs /\ forallb is_query evs = true.
Proof.
  intros Hq E. destruct (Hq _ _ _ E) as (k & evs & _ & Hl & Hall). eauto.
Qed.





(** ** Further properties of the journey *)

(** *** Calls that are answered at once *)

Lemma poll_loop_now {A : Type} (n : nat) (probe : page -> poll A) (w : state B) :
  probe (render B w) <> Pending ->
  poll_loop n probe w = (probe (render B w), w).
Proof.
  intros H. unfold poll_loop.
  destruct n; (destruct (probe (render B w)); [reflexivity|contradiction|reflexivity]).
Qed.

Lemma locator_query_now {L A : Type} (q : query) (l : locator)
    (timeout : option N) (probe : list element -> poll A) (affirm : A -> bool)
    (s : st L) (a : A) :
  probe (resolve (render B (world s)) l) = Ready a ->
  locator_query q l timeout probe affirm s
  = (Ok a, emit s (EvQuery q l (affirm a)) (world s)).
Proof.
  intros H. unfold locator_query.
  rewrite poll_loop_now by (rewrite H; discriminate). rewrite H. reflexivity.
Qed.

(** What a call on a locator leaves when it returns a value. *)
Lemma locator_query_ok {L A : Type} (q : query) (l : locator)
    (timeout : option N) (probe : list element -> poll A) (affirm : A -> bool)
    (s : st L) (a : A) (s' : st L) :
  locator_query q l timeout probe affirm s = (Ok a, s') ->
  probe (resolve (render B (world s')) l) = Ready a /\
  log s' = log s ++ [EvQuery q l (affirm a)] /\
  vars s' = vars s.
Proof.
  intros E.
  destruct (locator_query_cases q l timeout probe affirm s) as (k & _ & _ & H).
  destruct (probe (resolve (render B (ticks k (world s))) l)) as [a0| |n] eqn:Ep.
  - rewrite H in E. inversion E; subst. cbn [world log vars emit]. auto.
  - destruct H as [_ H]. rewrite H in E. destruct timeout; discriminate.
  - rewrite H in E. discriminate.
Qed.

(** What a call on a locator can raise, and that it keeps the
    variables. *)
Lemma locator_query_shape {L A : Type} (q : query) (l : locator)
    (timeout : option N) (probe : list element -> poll A) (affirm : A -> bool)
    (s : st L) (r : outcome A) (s' : st L) :
  locator_query q l timeout probe affirm s = (r, s') ->
  vars s' = vars s /\
  forall e, r = Throw e -> exists f, e = LocatorError f q l.
Proof.
  intros E.
  destruct (locator_query_cases q l timeout probe affirm s) as (k & _ & _ & H).
  destruct (probe (resolve (render B (ticks k (world s))) l)) as [a0| |n];
    [|destruct H as [_ H]|]; rewrite H in E; inversion E; subst;
    (split; [reflexivity|]); intros e He; try discriminate.
  - destruct timeout; inversion He. eauto.
  - inversion He. eauto.
Qed.

(** *** X1: the album chain ends in bounded time *)




(** *** X3: the scan of strategy 3 *)



Lemma skipn_nth_error {A : Type} (l : list A) (i : nat) (a : A) :
  nth_error l i = Some a -> skipn i l = a :: skipn (S i) l.
Proof.
  revert l; induction i as [|i IH]; intros [|x l] H; try discriminate.
  - inversion H; reflexivity.
  - cbn [skipn]. apply IH. exact H.
Qed.

(** On the page as it is, the scan takes no time: every index below
    the count it was given holds an element. *)
Lemma play_scan_now (n i : nat) (s : st play_vars) :
  i + n <= List.length (resolve (render B (world s)) allButtons) ->
  exists evs,
    forallb is_query evs = true /\
    play_scan n i s
    = (Ok tt,
       St (world s) (log s ++ evs)
          (match first_play
                   (firstn n (skipn i (resolve (render B (world s)) allButtons))) i
           with
           | Some j => PlayVars (Some (Nth allButtons j)) fallback_scan
           | None => vars s
           end)).
Proof.
  revert i s; induction n as [|n IH]; intros i s Hlen.
  - exists []. split; [reflexivity|]. cbn. rewrite app_nil_r. destruct s; reflexivity.
  - destruct (nth_error (resolve (render B (world s)) allButtons) i) as [e|] eqn:En.
    2:{ apply nth_error_None in En. lia. }
    rewrite (skipn_nth_error _ _ _ En). cbn [firstn first_play play_scan].
    assert (Hres : resolve (render B (world s)) (Nth allButtons i) = [e])
      by (cbn [resolve]; rewrite En; reflexivity).
    unfold bind at 1. unfold textContent.
    rewrite (locator_query_now QTextContent (Nth allButtons i) None _ yes s (text e))
      by (rewrite Hres; reflexivity).
    unfold bind at 1. unfold is_play.
    destruct (String.eqb (Text.trim (text e)) "Play") eqn:Etxt; cbn [andb].
    + rewrite isVisible_now by apply narrowed_nth.
      cbn [world emit]. unfold shows. rewrite Hres.
      destruct (visible e) eqn:Ev.
      * eexists. split; [|unfold bind, assign_button, assign_strategy; cbn;
                          rewrite <- app_assoc; reflexivity].
        reflexivity.
      * match goal with |- context [play_scan n (S i) ?s2] =>
          destruct (IH (S i) s2) as (evs & Hq & Hrun)
        end.
        { cbn [world emit]. lia. }
        rewrite Hrun. cbn [world log vars emit].
        eexists. split; [|rewrite <- !app_assoc; reflexivity].
        cbn. exact Hq.
    + unfold ret at 1.
      match goal with |- context [play_scan n (S i) ?s2] =>
        destruct (IH (S i) s2) as (evs & Hq & Hrun)
      end.
      { cbn [world emit]. lia. }
      rewrite Hrun. cbn [world log vars emit].
      eexists. split; [|rewrite <- !app_assoc; reflexivity].
      cbn. exact Hq.
Qed.

Lemma play_strategy3_now (s : st play_vars) (b : locator) :
  mainPlayButton (vars s) = Some b ->
  exists evs,
    forallb is_query evs = true /\
    play_strategy3 s
    = (Ok tt,
       St (world s) (log s ++ evs)
          (scan_result (resolve (render B (world s)) allButtons) (vars s))).
Proof.
  intros Hb. unfold play_strategy3. unfold bind at 1. rewrite count_now.
  unfold bind at 1.
  match goal with |- context [play_scan ?n 0 ?s1] =>
    destruct (play_scan_now n 0 s1) as (evs & Hq & Hrun)
  end.
  { cbn [world emit]. lia. }
  rewrite Hrun. cbn [world log vars emit skipn]. rewrite firstn_all.
  unfold bind, get_vars. cbn [vars]. unfold scan_result.
  destruct (first_play (resolve (render B (world s)) allButtons) 0);
    cbn [mainPlayButton]; [|rewrite Hb];
    (eexists; split; [|unfold ret; rewrite <- !app_assoc; reflexivity]);
    cbn; exact Hq.
Qed.


(** *** X2: the play-button chain always returns *)

Lemma locate_play_returns (s : st play_vars) :
  exists k evs v b,
    k <= N.to_nat 5000 /\
    forallb is_query evs = true /\
    locate_play s = (Ok tt, St (ticks k (world s)) (log s ++ evs) v) /\
    mainPlayButton v = Some b.
Proof.
  pose proof (play_strategy1_run s) as H1. cbv zeta in H1.
  unfold locate_play, try_catch. rewrite H1.
  destruct (strategy1_accepts (render B (world s))).
  - exists 0, (strategy1_events (render B (world s))), 
      (PlayVars (Some playByRole) role_based), playByRole.
    split; [lia|]. split; [reflexivity|]. split; reflexivity.
  - unfold play_strategy2, bind, assign_button. cbn [world log vars strategyUsed].
    change (@expect_visible play_vars playByText)
      with (@await_shown play_vars QExpectVisible playByText expect_timeout).
    match goal with |- context [await_shown _ _ _ ?s1] =>
      destruct (await_shown_cases QExpectVisible playByText expect_timeout s1)
        as (k & Hk & _ & [[_ Hrun]|[_ [f Hrun]]]); rewrite Hrun
    end.
    + cbn [world log vars emit assign_strategy].
      eexists k, _, _, playByText.
      split; [exact Hk|]. split; [|split; [rewrite <- app_assoc; reflexivity|reflexivity]].
      reflexivity.
    + match goal with |- context [play_strategy3 ?s2] =>
        destruct (play_strategy3_now s2 playByText eq_refl) as (evs & Hq & Hrun3);
          rewrite Hrun3
      end.
      cbn [world log vars emit].
      assert (Hsome : exists b,
                 mainPlayButton
                   (scan_result
                      (resolve (render B (ticks k (world s))) allButtons)
                      (PlayVars (Some playByText) (strategyUsed (vars s)))) = Some b).
      { unfold scan_result. destruct (first_play _ 0); cbn; eauto. }
      destruct Hsome as [b Hb].
      eexists k, _, _, b.
      split; [exact Hk|]. split; [|split; [rewrite <- !app_assoc; reflexivity|exact Hb]].
      cbn. exact Hq.
Qed.


(** *** X4: what the play step can raise *)

Lemma bind_throw {L A C : Type} (m : M L A) (k : A -> M L C) (s : st L)
    (e : error) (s' : st L) :
  bind m k s = (Throw e, s') ->
  m s = (Throw e, s') \/ exists a s1, m s = (Ok a, s1) /\ k a s1 = (Throw e, s').
Proof.
  unfold bind. destruct (m s) as [[a|e1|] s1]; intros E.
  - right; exists a, s1; auto.
  - left; inversion E; reflexivity.
  - discriminate.
Qed.

Lemma names_ret {L A : Type} (b : locator) (a : A) : names b (@ret L A a).
Proof. intros s r s' E; inversion E; subst. split; [reflexivity|discriminate]. Qed.

Lemma names_bind {L A C : Type} (b : locator) (m : M L A) (k : A -> M L C) :
  names b m -> (forall a, names b (k a)) -> names b (bind m k).
Proof.
  intros Hm Hk s r s' E. unfold bind in E.
  destruct (m s) as [[a|e|] s1] eqn:E1.
  - destruct (Hm _ _ _ E1) as [Hv1 _]. destruct (Hk a _ _ _ E) as [Hv2 He].
    split; [congruence|exact He].
  - inversion E; subst. destruct (Hm _ _ _ E1) as [Hv He].
    split; [exact Hv|]. intros e0 H0. inversion H0; subst. apply He; reflexivity.
  - inversion E; subst. destruct (Hm _ _ _ E1) as [Hv _].
    split; [exact Hv|discriminate].
Qed.

Lemma names_locator_query {L A : Type} (b : locator) (q : query)
    (timeout : option N) (probe : list element -> poll A) (affirm : A -> bool) :
  names b (@locator_query L A q b timeout probe affirm).
Proof.
  intros s r s' E. destruct (locator_query_shape _ _ _ _ _ _ _ _ E) as [Hv He].
  split; [exact Hv|]. intros e Hr. destruct (He e Hr) as [f ->]. eauto.
Qed.

Lemma names_screenshot {L : Type} (b : locator) (path : string) :
  names b (@screenshot L path).
Proof. intros s r s' E; inversion E; subst. split; [reflexivity|discriminate]. Qed.

Lemma names_act {L : Type} (b : locator) (ev : event) (f : state B -> state B) :
  names b (@act L ev f).
Proof. intros s r s' E; inversion E; subst. split; [reflexivity|discriminate]. Qed.

Lemma names_click {L : Type} (b : locator) : names b (@click L b).
Proof.
  unfold click. apply names_bind; [apply names_locator_query|].
  intros e; apply names_act.
Qed.

Lemma play_checks_names (s : st play_vars) (b : locator)
    (r : outcome locator) (s' : st play_vars) :
  mainPlayButton (vars s) = Some b ->
  play_checks s = (r, s') ->
  vars s' = vars s /\
  (forall a, r = Ok a -> a = b) /\
  (forall e, r = Throw e -> exists f q, e = LocatorError f q b).
Proof.
  intros Hb E. unfold play_checks in E. unfold bind at 1, get_vars in E.
  unfold bind at 1, deref in E. rewrite Hb in E. unfold ret at 1 in E.
  match type of E with ?m s = _ =>
    assert (Hn : names b m)
  end.
  { unfold expect_visible, expect_enabled, textContent, getAttribute.
    repeat (apply names_bind; [first [apply names_locator_query|apply names_screenshot]|intro]).
    apply names_ret. }
  destruct (Hn _ _ _ E) as [Hv He]. split; [exact Hv|]. split; [|exact He].
  intros a Ha. subst r.
  apply bind_ok in E. destruct E as (t1 & s1 & _ & E).
  apply bind_ok in E. destruct E as (t2 & s2 & _ & E).
  apply bind_ok in E. destruct E as (t3 & s3 & _ & E).
  apply bind_ok in E. destruct E as (t4 & s4 & _ & E).
  apply bind_ok in E. destruct E as (t5 & s5 & _ & E).
  inversion E; reflexivity.
Qed.

Lemma page_wait_unbounded_never_raises {L : Type} (q : page_query)
    (cond : page -> bool) (s : st L) (e : error) (s' : st L) :
  page_wait q None cond s <> (Throw e, s').
Proof.
  unfold page_wait.
  destruct (poll_loop (budget_of None) (fun p => when_ (cond p)) (world s)) as [r w].
  destruct r; discriminate.
Qed.

(** X4.  Every exception that leaves the play step is an error of a
    Playwright call on the locator that [mainPlayButton] holds: a
    timeout or strict-mode error of the validations or of the click.
    In particular a missing play button is reported by the
    [toBeVisible] that follows the chain, not by the chain. *)
Theorem play_step_error_names_the_button
    (s : st play_vars) (e : error) (s' : st play_vars) :
  play_body s = (Throw e, s') ->
  exists f q l, e = LocatorError f q l /\ mainPlayButton (vars s') = Some l.
Proof.
  unfold play_body. intros E.
  apply bind_throw in E. destruct E as [E|(t0 & s1 & _ & E)].
  { exfalso. exact (page_wait_unbounded_never_raises _ _ _ _ _ E). }
  destruct (locate_play_returns s1) as (k & evs & v & b & _ & _ & Hrun & Hb).
  unfold bind at 1 in E. rewrite Hrun in E.
  apply bind_throw in E. destruct E as [E|(a & s3 & Ec & E)].
  - destruct (play_checks_names (St (ticks k (world s1)) (log s1 ++ evs) v) b _ _ Hb E)
      as (Hv & _ & He).
    destruct (He e eq_refl) as (f & q & ->).
    exists f, q, b. split; [reflexivity|]. rewrite Hv. exact Hb.
  - destruct (play_checks_names (St (ticks k (world s1)) (log s1 ++ evs) v) b _ _ Hb Ec)
      as (Hv & Ha & _).
    rewrite (Ha a eq_refl) in E.
    destruct (names_click b _ _ _ E) as [Hv' He].
    destruct (He e eq_refl) as (f & q & ->).
    exists f, q, b. split; [reflexivity|]. rewrite Hv', Hv. exact Hb.
Qed.

(** *** X12: the actions of a run *)

Lemma actions_app (a b : list event) : actions (a ++ b) = actions a ++ actions b.
Proof. apply filter_app. Qed.

Lemma actions_queries (evs : list event) :
  forallb is_query evs = true -> actions evs = [].
Proof.
  induction evs as [|ev evs IH]; [reflexivity|]. cbn.
  intros H. apply andb_true_iff in H. destruct H as [H1 H2].
  rewrite H1. cbn. apply IH; exact H2.
Qed.

Lemma fits_length (sc : list shape) (done : list event) :
  fits sc done -> List.length sc = List.length done.
Proof. apply Forall2_length. Qed.

Lemma fits_whole_prefix (sc : list shape) (done : list event) :
  fits sc done -> fits_prefix sc done.
Proof.
  intros H. unfold fits_prefix. rewrite <- (fits_length _ _ H), firstn_all. exact H.
Qed.

Lemma fits_prefix_length (sc : list shape) (done : list event) :
  fits_prefix sc done -> List.length done <= List.length sc.
Proof.
  intros H. apply fits_length in H. rewrite length_firstn in H. lia.
Qed.

Lemma fits_prefix_left (sc1 sc2 : list shape) (done : list event) :
  fits_prefix sc1 done -> fits_prefix (sc1 ++ sc2) done.
Proof.
  intros H. pose proof (fits_prefix_length _ _ H) as Hlen.
  unfold fits_prefix in *. rewrite firstn_app.
  replace (List.length done - List.length sc1) with 0 by lia.
  cbn [firstn]. rewrite app_nil_r. exact H.
Qed.

Lemma fits_prefix_right (sc1 sc2 : list shape) (d1 d2 : list event) :
  fits sc1 d1 -> fits_prefix sc2 d2 -> fits_prefix (sc1 ++ sc2) (d1 ++ d2).
Proof.
  intros H1 H2. pose proof (fits_length _ _ H1) as Hlen.
  unfold fits_prefix in *. rewrite length_app, <- Hlen, firstn_app_2.
  apply Forall2_app; assumption.
Qed.

Lemma fits_app (sc1 sc2 : list shape) (d1 d2 : list event) :
  fits sc1 d1 -> fits sc2 d2 -> fits (sc1 ++ sc2) (d1 ++ d2).
Proof. apply Forall2_app. Qed.

Lemma acts_quiet {L A : Type} (m : M L A) : quiet m -> acts m [].
Proof.
  intros Hq s r s' E. destruct (Hq _ _ _ E) as (k & evs & _ & Hl & Hall).
  exists evs. rewrite (actions_queries _ Hall).
  split; [exact Hl|]. split; [constructor|intros _; constructor].
Qed.

Lemma acts_bind {L A C : Type} (m : M L A) (k : A -> M L C) (sc1 sc2 : list shape) :
  acts m sc1 -> (forall a, acts (k a) sc2) -> acts (bind m k) (sc1 ++ sc2).
Proof.
  intros Hm Hk s r s' E. unfold bind in E.
  destruct (m s) as [[a|e|] s1] eqn:E1;
    destruct (Hm _ _ _ E1) as (ev1 & Hl1 & Hp1 & Hf1).
  - destruct (Hk a _ _ _ E) as (ev2 & Hl2 & Hp2 & Hf2).
    exists (ev1 ++ ev2). rewrite Hl2, Hl1, app_assoc, actions_app.
    split; [reflexivity|]. split.
    + apply fits_prefix_right; [apply Hf1; eauto|exact Hp2].
    + intros Hok. apply fits_app; [apply Hf1; eauto|apply Hf2; exact Hok].
  - inversion E; subst. exists ev1. split; [exact Hl1|]. split.
    + apply fits_prefix_left; exact Hp1.
    + intros [a Ha]; discriminate.
  - inversion E; subst. exists ev1. split; [exact Hl1|]. split.
    + apply fits_prefix_left; exact Hp1.
    + intros [a Ha]; discriminate.
Qed.

Lemma acts_eq {L A : Type} (m : M L A) (sc sc' : list shape) :
  acts m sc' -> sc' = sc -> acts m sc.
Proof. intros H <-; exact H. Qed.

Lemma acts_act {L : Type} (ev : event) (f : state B -> state B) :
  is_query ev = false -> acts (@act L ev f) [Exactly ev].
Proof.
  intros Hq s r s' E. inversion E; subst. exists [ev].
  unfold actions; cbn. rewrite Hq; cbn.
  split; [reflexivity|].
  split; [|intros _]; repeat constructor.
Qed.

Lemma acts_click {L : Type} (l : locator) : acts (@click L l) [Exactly (EvClick l)].
Proof.
  unfold click. apply (acts_bind _ _ [] [Exactly (EvClick l)]).
  - apply acts_quiet, quiet_locator_query.
  - intros e. apply acts_act. reflexivity.
Qed.

Lemma acts_fill {L : Type} (l : locator) (v : string) :
  acts (@fill L l v) [Exactly (EvFill l v)].
Proof.
  unfold fill. apply (acts_bind _ _ [] [Exactly (EvFill l v)]).
  - apply acts_quiet, quiet_locator_query.
  - intros e. apply acts_act. reflexivity.
Qed.

Lemma acts_clear {L : Type} (l : locator) : acts (@clear L l) [Exactly (EvClear l)].
Proof.
  unfold clear. apply (acts_bind _ _ [] [Exactly (EvClear l)]).
  - apply acts_quiet, quiet_locator_query.
  - intros e. apply acts_act. reflexivity.
Qed.

Lemma acts_goto {L : Type} (target : string) :
  acts (@goto L target) [Exactly (EvGoto target)].
Proof.
  intros s r s' E. unfold goto in E.
  destruct (navigate B target (world s)) as [w|].
  - unfold waitForLoadState in E.
    destruct (quiet_log _ _ _ _ (quiet_page_wait _ _ _) E) as (evs & Hl & Hall).
    exists (EvGoto target :: evs). cbn [log emit] in Hl.
    rewrite Hl, <- app_assoc. split; [reflexivity|].
    unfold actions. cbn. fold (actions evs). rewrite (actions_queries _ Hall).
    split; [|intros _]; repeat constructor.
  - inversion E; subst. exists [EvGoto target]. split; [reflexivity|].
    split; [|intros _]; repeat constructor.
Qed.

Lemma acts_any_click {L A : Type} (m : M L A) (l : locator) :
  acts m [Exactly (EvClick l)] -> acts m [AnyClick].
Proof.
  intros H s r s' E. destruct (H _ _ _ E) as (evs & Hl & Hp & Hf).
  exists evs. split; [exact Hl|].
  assert (Hweak : forall n done,
            fits (firstn n [Exactly (EvClick l)]) done ->
            fits (firstn n [AnyClick]) done).
  { intros [|[|n]] done Hd; cbn in *; inversion Hd; subst; try constructor;
      cbn in *; eauto. }
  split.
  - exact (Hweak _ _ Hp).
  - intros Hok. exact (Hweak 1 _ (Hf Hok)).
Qed.

Lemma acts_with_locals {L A : Type} (init : L) (m : M L A) (sc : list shape) :
  acts m sc -> acts (with_locals init m) sc.
Proof.
  intros Hm s r s' E. unfold with_locals in E.
  destruct (m (St (world s) (log s) init)) as [r1 s1] eqn:E1.
  inversion E; subst. exact (Hm _ _ _ E1).
Qed.

Lemma quiet_race_waitFor {L : Type} (l1 l2 : locator) (t : N) :
  quiet (@race_waitFor L l1 l2 t).
Proof.
  intros s r s' E. unfold race_waitFor in E. cbv zeta in E.
  match type of E with context [poll_loop ?n ?p (world s)] =>
    destruct (poll_loop_spec n p (world s)) as (k & _ & Hrun & _);
      rewrite Hrun in E; destruct (p (render B (ticks k (world s))))
  end; inversion E; subst; exists k; eexists; cbn [world log emit];
    (split; [reflexivity|]); (split; [rewrite <- app_assoc; reflexivity|reflexivity]).
Qed.

Lemma quiet_confirm_album_page (inds : list locator) : quiet (confirm_album_page inds).
Proof.
  induction inds as [|i inds IH]; cbn [confirm_album_page]; [apply quiet_ret|].
  apply quiet_bind.
  - apply quiet_try; [|apply quiet_ret].
    quiet_tac. apply quiet_local; intros s; do 2 eexists; reflexivity.
  - intros [|]; [apply quiet_ret|exact IH].
Qed.

Lemma quiet_alternative_patterns (ps : list string) : quiet (alternative_patterns ps).
Proof.
  induction ps as [|p ps IH]; cbn [alternative_patterns]; [apply quiet_ret|].
  apply quiet_bind.
  - apply quiet_try; [|apply quiet_ret]. quiet_tac.
  - intros [|]; [apply quiet_ret|exact IH].
Qed.

Ltac quiet_all :=
  quiet_tac;
  first [ apply quiet_race_waitFor | apply quiet_confirm_album_page
        | apply quiet_alternative_patterns | apply quiet_locate_album
        | apply quiet_locate_play ].

Ltac acts_tac :=
  repeat first
    [ apply acts_click | apply acts_fill | apply acts_clear | apply acts_goto
    | apply acts_with_locals
    | match goal with
      | |- acts (bind _ _) _ => eapply acts_bind
      | |- forall _, acts _ _ => intro
      end
    | apply acts_quiet; solve [quiet_tac | quiet_all] ].

Lemma acts_step_navigate : acts step_navigate [Exactly (EvGoto "https://open.spotify.com/")].
Proof. eapply acts_eq; [unfold step_navigate; acts_tac|reflexivity]. Qed.

Lemma acts_step_open_language_menu :
  acts step_open_language_menu [Exactly (EvClick languageButton)].
Proof.
  eapply acts_eq; [unfold step_open_language_menu; acts_tac|reflexivity].
Qed.

Lemma acts_step_select_portuguese :
  acts step_select_portuguese [Exactly (EvClick ptBROption)].
Proof.
  eapply acts_eq; [unfold step_select_portuguese, expect_meaningful; acts_tac|reflexivity].
Qed.

Lemma acts_step_search_input :
  acts step_search_input [Exactly (EvClick searchInput)].
Proof. eapply acts_eq; [unfold step_search_input; acts_tac|reflexivity]. Qed.

Lemma acts_step_type_query :
  acts step_type_query
    [Exactly (EvClear searchInput); Exactly (EvFill searchInput searchQuery)].
Proof.
  eapply acts_eq; [unfold step_type_query, type_query, suggestions_probe; acts_tac|reflexivity].
Qed.

Lemma acts_step_click_album : acts step_click_album [AnyClick].
Proof.
  unfold step_click_album. apply acts_with_locals.
  apply (acts_bind _ _ [AnyClick] []).
  - unfold open_album.
    apply (acts_bind _ _ [] [AnyClick]); [apply acts_quiet, quiet_screenshot|intros _].
    apply (acts_bind _ _ [] [AnyClick]).
    { apply acts_quiet. quiet_tac; apply quiet_local; intros s; do 2 eexists; reflexivity. }
    intros _.
    apply (acts_bind _ _ [] [AnyClick]); [apply acts_quiet, quiet_get_vars|intros v].
    apply (acts_bind _ _ [] [AnyClick]); [apply acts_quiet, quiet_deref|intros album].
    apply (acts_bind _ _ [] [AnyClick]);
      [apply acts_quiet; unfold expect_enabled; apply quiet_locator_query|intros _].
    apply (acts_bind _ _ [AnyClick] []);
      [apply (acts_any_click _ album), acts_click|intros _].
    apply acts_quiet. quiet_tac.
  - intros u. apply acts_quiet.
    apply quiet_bind; [apply quiet_expect_that|intros _].
    apply quiet_bind; [apply quiet_confirm_album_page|intros _; apply quiet_screenshot].
Qed.

Lemma acts_step_play : acts step_play [AnyClick].
Proof.
  unfold step_play, play_body. apply acts_with_locals.
  apply (acts_bind _ _ [] [AnyClick]);
    [apply acts_quiet; unfold waitForLoadState; apply quiet_page_wait|intros _].
  apply (acts_bind _ _ [] [AnyClick]); [apply acts_quiet, quiet_locate_play|intros _].
  apply (acts_bind _ _ [] [AnyClick]); [apply acts_quiet, quiet_play_checks|intros b].
  apply (acts_any_click _ b), acts_click.
Qed.

Lemma acts_journey :
  Forall2 (fun step script => acts (snd step) script) journey step_scripts.
Proof.
  unfold journey, step_scripts. repeat constructor; cbn [snd].
  - exact acts_step_navigate.
  - apply acts_quiet. unfold step_language_button, expect_meaningful. quiet_tac.
  - exact acts_step_open_language_menu.
  - exact acts_step_select_portuguese.
  - apply acts_quiet. unfold step_validate_language, language_change_mandatory,
      language_change_probe. quiet_tac.
  - exact acts_step_search_input.
  - exact acts_step_type_query.
  - apply acts_quiet, quiet_step_locate_album.
  - exact acts_step_click_album.
  - exact acts_step_play.
  - apply acts_quiet. unfold step_auth_modal, auth_body.
    apply quiet_with_locals, quiet_try; [quiet_tac|].
    apply quiet_bind; [apply quiet_set_vars|intros _].
    apply quiet_bind; [apply quiet_alternative_patterns|intros _; apply quiet_screenshot].
  - apply acts_quiet. unfold step_final. quiet_tac.
Qed.

(** The steps of a list, each acting by its script, act together by
    the scripts put end to end. *)
Lemma run_steps_acts (steps : list (string * M unit unit))
    (scripts : list (list shape)) (s : st unit) :
  Forall2 (fun step script => acts (snd step) script) steps scripts ->
  exists evs,
    log (snd (run_steps steps s)) = log s ++ evs /\
    fits_prefix (List.concat scripts) (actions evs) /\
    (List.length (fst (run_steps steps s)) = List.length steps ->
     forallb passed (fst (run_steps steps s)) = true ->
     fits (List.concat scripts) (actions evs)).
Proof.
  intros H. revert s. induction H as [|[name body] sc steps scripts Hb _ IH]; intros s.
  - exists []. cbn. rewrite app_nil_r. repeat split; constructor.
  - cbn [run_steps List.concat snd] in *.
    destruct (body s) as [[a|e|] s1] eqn:E;
      destruct (Hb _ _ _ E) as (ev1 & Hl1 & Hp1 & Hf1).
    + destruct (IH s1) as (ev2 & Hl2 & Hp2 & Hf2).
      destruct (run_steps steps s1) as [reports s2]. cbn [fst snd] in *.
      exists (ev1 ++ ev2). rewrite Hl2, Hl1, app_assoc, actions_app.
      split; [reflexivity|]. split.
      * apply fits_prefix_right; [apply Hf1; eauto|exact Hp2].
      * intros Hlen Hall. cbn [List.length forallb] in *.
        apply fits_app; [apply Hf1; eauto|].
        apply Hf2; [lia|]. apply andb_true_iff in Hall; tauto.
    + cbn [fst snd]. exists ev1. split; [exact Hl1|]. split.
      * apply fits_prefix_left; exact Hp1.
      * intros _ Hall. cbn in Hall. discriminate.
    + cbn [fst snd]. exists ev1. split; [exact Hl1|]. split.
      * apply fits_prefix_left; exact Hp1.
      * intros _ Hall. cbn in Hall. discriminate.
Qed.

(** X12.  Whatever the site does, the calls by which a run acts on
    the browser are the first ones of a fixed script, in its order:
    the two calls of the hook, the navigation to the service root, the
    clicks on the language button, on the pt-BR option and on the
    search input, the clearing and the filling of the search input
    with the query, one click (on the album) and one more click (on
    the play button).  Every other call of the run is a query or a
    screenshot.  A Verified run has made all ten, once each. *)
Theorem journey_actions_follow_script (w : state B) :
  let run := run_test w in
  fits_prefix journey_script (actions (log (snd run))) /\
  (fst (fst run) = Verified -> fits journey_script (actions (log (snd run)))).
Proof.
  unfold run_test. cbv zeta.
  assert (Hb : before_each (St w [] tt)
               = (Ok tt, St (set_viewport B 1366%N 768%N (clear_cookies B w))
                            [EvClearCookies; EvSetViewport 1366%N 768%N] tt))
    by reflexivity.
  rewrite Hb.
  match goal with |- context [run_steps journey ?s0] =>
    destruct (run_steps_acts journey step_scripts s0 acts_journey)
      as (evs & Hl & Hp & Hf);
      destruct (run_steps journey s0) as [reports s1]
  end.
  cbn [fst snd log] in *. rewrite Hl.
  assert (Hhook : fits hook_script [EvClearCookies; EvSetViewport 1366%N 768%N])
    by (repeat constructor).
  change (actions ([EvClearCookies; EvSetViewport 1366%N 768%N] ++ evs))
    with ([EvClearCookies; EvSetViewport 1366%N 768%N] ++ actions evs).
  unfold journey_script. split.
  - apply fits_prefix_right; assumption.
  - intros Hv. unfold verdict_of in Hv.
    destruct ((List.length reports =? List.length journey) && forallb passed reports)
      eqn:Hall; [|discriminate].
    apply andb_true_iff in Hall. destruct Hall as [Hlen Hall].
    apply Nat.eqb_eq in Hlen.
    apply fits_app; [exact Hhook|exact (Hf Hlen Hall)].
Qed.

(** *** X5: the language menu *)

(** X5.  The step that opens the language menu ends as its click on
    the language button ends: when the click fails the step fails
    with it, and once the click is done the step passes whatever the
    page shows.  The wait for the menu (3000 ms at most) only decides
    which of two screenshots is taken. *)
Theorem language_menu_detection_is_soft
    (s : st unit) (r : outcome unit) (s1 : st unit) :
  click languageButton s = (r, s1) ->
  (r <> Ok tt -> step_open_language_menu s = (r, s1)) /\
  (r = Ok tt ->
   exists k evs,
     k <= N.to_nat 3000 /\
     forallb is_query evs = true /\
     step_open_language_menu s
     = (Ok tt, St (ticks k (world s1)) (log s1 ++ evs) tt) /\
     (In menu_opened_shot evs \/ In menu_result_shot evs)).
Proof.
  intros E. split.
  - intros Hr. unfold step_open_language_menu. unfold bind at 1. rewrite E.
    destruct r as [[]|e|]; [contradiction|reflexivity|reflexivity].
  - intros ->. unfold step_open_language_menu. unfold bind at 1. rewrite E.
    unfold try_catch. unfold bind at 1.
    unfold race_waitFor. cbv beta zeta.
    match goal with |- context [poll_loop ?n ?p (world s1)] =>
      destruct (poll_loop_spec n p (world s1)) as (k & Hk & Hrun & _);
        rewrite Hrun; destruct (p (render B (ticks k (world s1)))) as [won| |n0]
    end.
    + unfold bind at 1. rewrite count_now. unfold bind, screenshot.
      unfold emit. cbn [world log vars]. destruct (vars s1).
      exists k. eexists. split; [exact Hk|].
      split; [|split; [rewrite <- !app_assoc; reflexivity|]].
      * reflexivity.
      * left. unfold menu_opened_shot. cbn. auto.
    + unfold screenshot. unfold emit. cbn [world log vars]. destruct (vars s1).
      exists k. eexists. split; [exact Hk|].
      split; [|split; [rewrite <- !app_assoc; reflexivity|]].
      * reflexivity.
      * right. unfold menu_result_shot. cbn. auto.
    + unfold screenshot. unfold emit. cbn [world log vars]. destruct (vars s1).
      exists k. eexists. split; [exact Hk|].
      split; [|split; [rewrite <- !app_assoc; reflexivity|]].
      * reflexivity.
      * right. unfold menu_result_shot. cbn. auto.
Qed.

(** *** X6: labels must not be blank *)

Lemma length_positive (x : string) :
  (0 <? String.length x) = true <-> x <> EmptyString.
Proof.
  destruct x; cbn; split; intros H; try reflexivity; try discriminate.
  contradiction.
Qed.

Lemma truthy_false (x : string) : Text.truthy x = false -> x = EmptyString.
Proof.
  unfold Text.truthy. intros H. apply negb_false_iff in H.
  apply String.eqb_eq in H. exact H.
Qed.

Lemma expect_meaningful_iff {L : Type} (content : string) (s : st L) :
  expect_meaningful content s = (Ok tt, s) <-> Text.trim content <> EmptyString.
Proof.
  unfold expect_meaningful, bind, expect_that.
  destruct (Text.truthy content) eqn:Et.
  - unfold ret at 1.
    destruct (0 <? String.length (Text.trim content)) eqn:El.
    + split; [intros _; apply length_positive; exact El|reflexivity].
    + split; [discriminate|]. intros H. apply length_positive in H. congruence.
  - apply truthy_false in Et. subst content. split; [discriminate|].
    intros H. exfalso. apply H. reflexivity.
Qed.

Lemma expect_meaningful_ok {L : Type} (content : string) (s s' : st L) :
  expect_meaningful content s = (Ok tt, s') ->
  s' = s /\ Text.trim content <> EmptyString.
Proof.
  intros E. assert (Hs : s' = s).
  { unfold expect_meaningful, bind, expect_that in E.
    destruct (Text.truthy content); [|discriminate]. unfold ret at 1 in E.
    destruct (0 <? String.length (Text.trim content)); inversion E; reflexivity. }
  subst s'. split; [reflexivity|]. apply (expect_meaningful_iff content s); exact E.
Qed.

Lemma strict_ready {A : Type} (f : element -> poll A) (els : list element) (a : A) :
  strict f els = Ready a -> exists e, els = [e] /\ f e = Ready a.
Proof.
  destruct els as [|e [|e' rest]]; cbn; intros H; try discriminate. eauto.
Qed.

Lemma strict_when (f : element -> bool) (els : list element) :
  strict (fun e => when_ (f e)) els = Ready tt ->
  exists e, els = [e] /\ f e = true.
Proof.
  intros H. apply strict_ready in H. destruct H as (e & -> & H).
  exists e. split; [reflexivity|]. destruct (f e); [reflexivity|discriminate].
Qed.


(** *** X7 and X8: the search input *)

(** X7.  When the step that locates the search input passes, the page
    it leaves holds one search input, and that input has the focus. *)
Theorem search_input_has_focus_after_step (s s' : st unit) :
  step_search_input s = (Ok tt, s') ->
  exists e, resolve (render B (world s')) searchInput = [e] /\ focused e = true.
Proof.
  unfold step_search_input. intros E.
  apply bind_ok in E. destruct E as ([] & s1 & _ & E).
  apply bind_ok in E. destruct E as ([] & s2 & _ & E).
  apply bind_ok in E. destruct E as ([] & s3 & _ & E).
  apply bind_ok in E. destruct E as (ph & s4 & _ & E).
  apply bind_ok in E. destruct E as ([] & s5 & _ & E).
  apply bind_ok in E. destruct E as ([] & s6 & _ & E).
  apply bind_ok in E. destruct E as ([] & s7 & _ & E).
  apply locator_query_ok in E. destruct E as (Hp & _ & _).
  exact (strict_when _ _ Hp).
Qed.

(** X8.  When the query has been typed and checked, the page holds
    one search input and its value is the query, [pink floyd]. *)
Theorem typed_query_is_in_the_input (s s' : st unit) :
  type_query s = (Ok tt, s') ->
  exists e, resolve (render B (world s')) searchInput = [e] /\ value e = searchQuery.
Proof.
  unfold type_query. intros E.
  apply bind_ok in E. destruct E as ([] & s1 & _ & E).
  apply bind_ok in E. destruct E as ([] & s2 & _ & E).
  apply bind_ok in E. destruct E as ([] & s3 & Ev & E).
  inversion E; subst. cbn [world emit].
  apply locator_query_ok in Ev. destruct Ev as (Hp & _ & _).
  apply strict_when in Hp. destruct Hp as (e & Hres & He).
  exists e. split; [exact Hres|]. apply String.eqb_eq. exact He.
Qed.

(** *** X9: the flag of the alternative phrases *)

Lemma alternative_iteration (p : string) (s : st bool) :
  let it := try_catch
              (waitFor (GetByText p false) 1000%N;;
               set_vars true;;
               contextText <- textContent (GetByText p false);;
               ret true)
              (ret false) in
  exists evs,
    log (snd (it s)) = log s ++ evs /\
    vars (snd (it s)) = vars s || existsb seen_wait evs.
Proof.
  cbv zeta.
  match goal with |- context [try_catch ?m ?h s] =>
    destruct (try_catch m h s) as [r s'] eqn:E
  end.
  cbn [fst snd]. unfold try_catch in E. unfold bind at 1 in E.
  change (@waitFor bool (GetByText p false) 1000%N)
    with (@await_shown bool (QWaitFor 1000) (GetByText p false) 1000%N) in E.
  destruct (await_shown_cases (QWaitFor 1000) (GetByText p false) 1000%N s)
    as (k & _ & _ & [[_ Hrun]|[_ [f Hrun]]]); rewrite Hrun in E.
  - unfold bind at 1, set_vars in E. unfold emit at 1 in E. cbn [world log vars] in E.
    unfold bind at 1, textContent in E.
    match type of E with context [locator_query ?q ?l ?t ?pr ?a ?s2] =>
      destruct (locator_query_cases q l t pr a s2) as (k2 & _ & _ & H);
        destruct (pr (resolve (render B (ticks k2 (world s2))) l));
        [|destruct H as [_ H]|]; rewrite H in E
    end; unfold emit, ret, lapse in E; cbn [world log vars] in E;
      inversion E; subst; cbn [log vars];
      eexists; (split; [rewrite <- !app_assoc; reflexivity|]);
      cbn; rewrite orb_true_r; reflexivity.
  - unfold ret, emit in E. inversion E; subst. cbn [log vars].
    eexists. split; [reflexivity|]. cbn. rewrite orb_false_r. reflexivity.
Qed.

(** X9.  After the loop over the alternative phrases the flag
    [alternativeFound] is true exactly when it was true before or one
    of the waits of the loop was answered: a phrase that showed sets
    the flag even when reading its text then fails. *)
Theorem alternative_found_iff_phrase_seen (ps : list string) (s : st bool) :
  exists evs,
    log (snd (alternative_patterns ps s)) = log s ++ evs /\
    vars (snd (alternative_patterns ps s)) = vars s || existsb seen_wait evs.
Proof.
  revert s; induction ps as [|p ps IH]; intros s.
  - exists []. cbn. rewrite app_nil_r, orb_false_r. split; reflexivity.
  - cbn [alternative_patterns].
    destruct (alternative_iteration p s) as (ev1 & Hl1 & Hv1). cbv zeta in Hl1, Hv1.
    match goal with |- context [bind ?m ?k s] =>
      destruct (bind m k s) as [r s'] eqn:E
    end.
    cbn [fst snd]. unfold bind at 1 in E.
    match type of E with context [try_catch ?m ?h s] =>
      destruct (try_catch m h s) as [[stop|e|] s1] eqn:Eit
    end; try rewrite Eit in Hl1, Hv1; cbn [fst snd] in *.
    + destruct stop.
      * inversion E; subst. exists ev1. split; assumption.
      * destruct (IH s1) as (ev2 & Hl2 & Hv2). rewrite E in Hl2, Hv2.
        cbn [fst snd] in *.
        exists (ev1 ++ ev2). rewrite Hl2, Hl1, Hv2, Hv1, existsb_app, app_assoc, orb_assoc.
        split; reflexivity.
    + inversion E; subst. exists ev1. split; assumption.
    + inversion E; subst. exists ev1. split; assumption.
Qed.

(** *** X10: the confirmation of the album page *)

Lemma shows_true (p : page) (l : locator) :
  shows p l = true -> exists e, resolve p l = [e] /\ visible e = true.
Proof.
  unfold shows. destruct (resolve p l) as [|e [|e' rest]]; try discriminate.
  intros H. exists e. split; [reflexivity|exact H].
Qed.

Lemma confirm_iteration (ind : locator) (s : st click_vars) :
  let it := try_catch
              (waitFor ind 2000%N;;
               pageTitle <- textContent ind;;
               expect_that "toMatch" pageTitle (Text.icontains album_title pageTitle);;
               assign_confirmed true;;
               ret true)
              (ret false) in
  (fst (it s) = Ok true /\
   exists e, resolve (render B (world (snd (it s)))) ind = [e] /\
             visible e = true /\ Text.icontains album_title (text e) = true)
  \/
  (fst (it s) <> Ok true /\ vars (snd (it s)) = vars s).
Proof.
  cbv zeta.
  match goal with |- context [try_catch ?m ?h s] =>
    destruct (try_catch m h s) as [r s'] eqn:E
  end.
  cbn [fst snd]. unfold try_catch in E. unfold bind at 1 in E.
  change (@waitFor click_vars ind 2000%N)
    with (@await_shown click_vars (QWaitFor 2000) ind 2000%N) in E.
  destruct (await_shown_cases (QWaitFor 2000) ind 2000%N s)
    as (k & _ & _ & [[Hs Hrun]|[_ [f Hrun]]]); rewrite Hrun in E.
  - apply shows_true in Hs. destruct Hs as (e & Hres & Hv).
    unfold bind at 1, textContent in E.
    rewrite (locator_query_now QTextContent ind None _ yes _ (text e)) in E
      by (cbn [world emit]; rewrite Hres; reflexivity).
    unfold bind at 1, expect_that in E.
    destruct (Text.icontains album_title (text e)) eqn:Et.
    + left. unfold ret, bind, assign_confirmed, emit in E. cbn [world log vars] in E.
      inversion E; subst. cbn [world]. split; [reflexivity|]. exists e. auto.
    + right. unfold throw, ret, emit in E. cbn [world log vars] in E.
      inversion E; subst. cbn [vars]. split; [discriminate|reflexivity].
  - right. unfold ret, emit in E. inversion E; subst. cbn [vars].
    split; [discriminate|reflexivity].
Qed.

(** X10.  The loop over the album-page indicators sets
    [albumPageConfirmed] only for an indicator that is on the page as
    one visible element whose text contains the album title, whatever
    the case of its letters.  An indicator that shows with another
    text is skipped. *)
Theorem album_page_confirmed_means_title_matched
    (inds : list locator) (s : st click_vars) :
  albumPageConfirmed (vars (snd (confirm_album_page inds s))) = true ->
  albumPageConfirmed (vars s) = true \/
  exists ind e,
    In ind inds /\
    resolve (render B (world (snd (confirm_album_page inds s)))) ind = [e] /\
    visible e = true /\
    Text.icontains album_title (text e) = true.
Proof.
  revert s; induction inds as [|ind inds IH]; intros s H.
  - left. exact H.
  - cbn [confirm_album_page] in *.
    pose proof (confirm_iteration ind s) as Hit. cbv zeta in Hit.
    match goal with |- context [bind ?m ?k s] =>
      destruct (bind m k s) as [r s'] eqn:E
    end.
    cbn [fst snd] in *. unfold bind at 1 in E.
    match type of E with context [try_catch ?m ?h s] =>
      destruct (try_catch m h s) as [[stop|e|] s1] eqn:Eit
    end; try rewrite Eit in Hit; cbn [fst snd] in *.
    + destruct stop.
      * inversion E; subst.
        destruct Hit as [[_ (e & Hres & Hv & Ht)]|[Hne _]]; [|congruence].
        right. exists ind, e. split; [left; reflexivity|auto].
      * destruct Hit as [[Habs _]|[_ Hvars]]; [discriminate|].
        specialize (IH s1). rewrite E in IH. cbn [fst snd] in IH.
        destruct (IH H) as [Hflag|(i & e & Hin & Hrest)].
        -- left. rewrite <- Hvars. exact Hflag.
        -- right. exists i, e. split; [right; exact Hin|exact Hrest].
    + inversion E; subst. destruct Hit as [[Habs _]|[_ Hvars]]; [discriminate|].
      left. rewrite <- Hvars. exact H.
    + inversion E; subst. destruct Hit as [[Habs _]|[_ Hvars]]; [discriminate|].
      left. rewrite <- Hvars. exact H.
Qed.

(** *** X11: what the step that opens the album clicks *)

Lemma names_page_wait_unbounded {L : Type} (b : locator) (q : page_query)
    (cond : page -> bool) :
  names b (@page_wait L q None cond).
Proof.
  intros s r s' E. unfold page_wait in E.
  destruct (poll_loop (budget_of None) (fun p => when_ (cond p)) (world s)) as [r0 w].
  destruct r0; inversion E; subst; (split; [reflexivity|discriminate]).
Qed.

Lemma names_page_url {L : Type} (b : locator) : names b (@page_url L).
Proof. intros s r s' E; inversion E; subst. split; [reflexivity|discriminate]. Qed.

(** The choice between the exact text and the first title match. *)
Lemma open_album_choice (s : st click_vars) :
  exists t evs r k,
    (t = albumExact \/ t = First albumTitleAttr) /\
    forallb is_query evs = true /\
    try_catch
      (assign_target albumExact;; expect_visible albumExact)
      (assign_target (First albumTitleAttr);; expect_visible (First albumTitleAttr)) s
    = (r, St (ticks k (world s)) (log s ++ evs)
             (ClickVars (Some t) (albumPageConfirmed (vars s)))) /\
    (r = Ok tt \/ exists f, r = Throw (LocatorError f QExpectVisible t)) /\
    (t = First albumTitleAttr -> In (EvQuery QExpectVisible albumExact false) evs).
Proof.
  unfold try_catch. unfold bind at 1, assign_target.
  change (@expect_visible click_vars albumExact)
    with (@await_shown click_vars QExpectVisible albumExact expect_timeout).
  match goal with |- context [await_shown _ albumExact _ ?s1] =>
    destruct (await_shown_cases QExpectVisible albumExact expect_timeout s1)
      as (k1 & _ & _ & [[_ Hrun]|[_ [f Hrun]]]); rewrite Hrun
  end; unfold emit; cbn [world log vars clickTarget albumPageConfirmed].
  - exists albumExact, [EvQuery QExpectVisible albumExact true], (Ok tt), k1.
    split; [left; reflexivity|]. split; [reflexivity|]. split; [reflexivity|].
    split; [left; reflexivity|]. intros H; discriminate.
  - unfold bind.
    change (@expect_visible click_vars (First albumTitleAttr))
      with (@await_shown click_vars QExpectVisible (First albumTitleAttr) expect_timeout).
    match goal with |- context [await_shown _ (First albumTitleAttr) _ ?s2] =>
      destruct (await_shown_cases QExpectVisible (First albumTitleAttr)
                  expect_timeout s2)
        as (k2 & _ & _ & [[_ Hrun2]|[_ [f2 Hrun2]]]); rewrite Hrun2
    end; unfold emit; cbn [world log vars clickTarget albumPageConfirmed];
      rewrite <- ticks_add, <- app_assoc.
    + exists (First albumTitleAttr),
        ([EvQuery QExpectVisible albumExact false]
         ++ [EvQuery QExpectVisible (First albumTitleAttr) true]), (Ok tt), (k1 + k2).
      split; [right; reflexivity|]. split; [reflexivity|]. split; [reflexivity|].
      split; [left; reflexivity|]. intros _; left; reflexivity.
    + exists (First albumTitleAttr),
        ([EvQuery QExpectVisible albumExact false]
         ++ [EvQuery QExpectVisible (First albumTitleAttr) false]),
        (Throw (LocatorError f2 QExpectVisible (First albumTitleAttr))), (k1 + k2).
      split; [right; reflexivity|]. split; [reflexivity|]. split; [reflexivity|].
      split; [right; exists f2; reflexivity|]. intros _; left; reflexivity.
Qed.

(** X11.  The step that opens the album clicks the locator its
    variable holds: the exact-text locator when that one showed alone
    within the [expect] timeout, and otherwise, only after that check
    failed, the first element with the title attribute.  It clicks at
    most once, and every exception that leaves this part of the step
    is an error of a call on the chosen locator. *)
Theorem click_step_target (s : st click_vars) :
  let run := open_album s in
  exists t evs,
    (t = albumExact \/ t = First albumTitleAttr) /\
    clickTarget (vars (snd run)) = Some t /\
    log (snd run) = log s ++ evs /\
    fits_prefix [Exactly (EvClick t)] (actions evs) /\
    (forall e, fst run = Throw e -> exists f q, e = LocatorError f q t) /\
    (t = First albumTitleAttr -> In (EvQuery QExpectVisible albumExact false) evs).
Proof.
  cbv zeta. destruct (open_album s) as [r s'] eqn:E. cbn [fst snd].
  unfold open_album in E. unfold bind at 1, screenshot in E.
  unfold bind at 1 in E.
  match type of E with context [try_catch ?m ?h ?s0] =>
    destruct (open_album_choice s0) as (t & ev1 & r1 & k & Ht & Hq1 & Hrun & Hr1 & Hfb);
      rewrite Hrun in E
  end.
  unfold emit in E. cbn [world log vars] in E.
  destruct Hr1 as [->|[f ->]].
  - unfold bind at 1, get_vars in E. cbn [vars clickTarget] in E.
    unfold bind at 1, deref, ret in E.
    match type of E with ?m ?s1 = _ =>
      assert (Hn : names t m);
        [|assert (Ha : acts m [Exactly (EvClick t)])]
    end.
    { unfold expect_enabled, waitForLoadState.
      repeat (apply names_bind;
              [first [apply names_locator_query|apply names_click
                     |apply names_page_wait_unbounded]|intro]).
      apply names_page_url. }
    { eapply acts_eq; [acts_tac|reflexivity]. }
    destruct (Hn _ _ _ E) as [Hv He]. destruct (Ha _ _ _ E) as (ev2 & Hl2 & Hp2 & _).
    cbn [log vars] in *.
    exists t, ((EvScreenshot "evidence/10-before-clicking-album.png" :: ev1) ++ ev2).
    split; [exact Ht|]. split; [rewrite Hv; reflexivity|].
    split; [rewrite Hl2, <- !app_assoc; reflexivity|].
    split; [|split].
    + rewrite actions_app. unfold actions at 1. cbn [filter is_query negb].
      fold (actions ev1). rewrite (actions_queries _ Hq1). exact Hp2.
    + exact He.
    + intros Hf. apply in_or_app. left. right. exact (Hfb Hf).
  - inversion E; subst. cbn [log vars clickTarget].
    exists t, (EvScreenshot "evidence/10-before-clicking-album.png" :: ev1).
    split; [exact Ht|]. split; [reflexivity|].
    split; [rewrite <- app_assoc; reflexivity|].
    split; [|split].
    + unfold actions. cbn [filter is_query negb].
      fold (actions ev1). rewrite (actions_queries _ Hq1). constructor.
    + intros e He. inversion He; subst. eauto.
    + intros Hf. right. exact (Hfb Hf).
Qed.

(** *** X13 to X15: the final step, the navigation, the language option *)

(** X13.  The final step never changes the page and takes no time.  It
    passes exactly when the current URL contains both
    [open.spotify.com] and [/album/]; the count of album elements it
    takes has no influence.  When it does not pass, it raises the
    failed [toContain] assertion on that URL. *)
Theorem final_step_checks_only_the_url (s : st unit) :
  let u := url (render B (world s)) in
  let run := step_final s in
  world (snd run) = world s /\
  (fst run = Ok tt <->
   Text.contains "open.spotify.com" u = true /\ Text.contains "/album/" u = true) /\
  (fst run <> Ok tt -> fst run = Throw (ExpectError "toContain" u)).
Proof.
  cbv zeta. unfold step_final, bind, page_url, expect_that, emit.
  cbn [world log vars].
  destruct (Text.contains "open.spotify.com" (url (render B (world s))));
    [destruct (Text.contains "/album/" (url (render B (world s))))|];
    unfold ret, throw; try rewrite count_now; unfold screenshot, emit;
    cbv beta iota zeta; cbn [fst snd world].
  - split; [reflexivity|].
    split; [split; [intros _; split; reflexivity|intros _; reflexivity]|].
    intros H; exfalso; apply H; reflexivity.
  - split; [reflexivity|].
    split; [split; [discriminate|intros [_ H]; discriminate]|]. reflexivity.
  - split; [reflexivity|].
    split; [split; [discriminate|intros [H _]; discriminate]|]. reflexivity.
Qed.

Lemma page_wait_ok {L : Type} (q : page_query) (timeout : option N)
    (cond : page -> bool) (s s' : st L) :
  page_wait q timeout cond s = (Ok tt, s') ->
  exists k, k <= budget_of timeout /\
    world s' = ticks k (world s) /\
    cond (render B (world s')) = true.
Proof.
  unfold page_wait. intros E.
  destruct (poll_loop_spec (budget_of timeout) (fun p => when_ (cond p)) (world s))
    as (k & Hk & Hrun & _).
  rewrite Hrun in E. exists k. split; [exact Hk|].
  destruct (cond (render B (ticks k (world s)))) eqn:Ec; cbn [when_] in E.
  - inversion E; subst. cbn [world emit]. split; [reflexivity|exact Ec].
  - destruct timeout; discriminate.
Qed.

(** X14.  When the navigation step passes, [goto] was accepted, the
    URL contained [open.spotify.com] at some moment after it, and the
    page the step leaves, at most the [expect] timeout later, has a
    title that contains [Spotify] in any letter case. *)
Theorem navigation_checks_url_then_title (s s' : st unit) :
  step_navigate s = (Ok tt, s') ->
  exists w0 k1 k2,
    navigate B "https://open.spotify.com/" (world s) = Some w0 /\
    Text.contains "open.spotify.com" (url (render B (ticks k1 w0))) = true /\
    k1 <= k2 /\ k2 <= k1 + N.to_nat expect_timeout /\
    world s' = ticks k2 w0 /\
    Text.icontains "Spotify" (title (render B (world s'))) = true.
Proof.
  unfold step_navigate. intros E.
  apply bind_ok in E. destruct E as ([] & s1 & Eg & E).
  apply bind_ok in E. destruct E as ([] & s2 & Ed & E).
  apply bind_ok in E. destruct E as ([] & s3 & Eu & E).
  apply bind_ok in E. destruct E as ([] & s4 & Et & E).
  inversion E; subst s'. cbn [world emit].
  unfold goto in Eg.
  destruct (navigate B "https://open.spotify.com/" (world s)) as [w0|] eqn:En;
    [|discriminate].
  apply page_wait_ok in Eg. destruct Eg as (ka & _ & Wa & _). cbn [world emit] in Wa.
  apply page_wait_ok in Ed. destruct Ed as (kb & _ & Wb & _).
  apply page_wait_ok in Eu. destruct Eu as (kc & _ & Wc & Hu).
  apply page_wait_ok in Et. destruct Et as (kd & Hkd & Wd & Ht).
  cbn [budget_of] in Hkd.
  assert (W3 : world s3 = ticks (ka + kb + kc) w0).
  { rewrite Wc, Wb, Wa, <- !ticks_add. f_equal; lia. }
  exists w0, (ka + kb + kc), (ka + kb + kc + kd).
  split; [reflexivity|]. split; [rewrite <- W3; exact Hu|].
  split; [lia|]. split; [lia|].
  split; [rewrite Wd, W3, <- ticks_add; f_equal; lia|exact Ht].
Qed.

Lemma quiet_world {L A : Type} (m : M L A) (s : st L) (r : outcome A) (s' : st L) :
  quiet m -> m s = (r, s') -> exists k, world s' = ticks k (world s).
Proof. intros Hq E. destruct (Hq _ _ _ E) as (k & _ & W & _). eauto. Qed.

(** A click that succeeds acts on the one element the locator then
    matches, which is visible and enabled. *)
Lemma click_ok {L : Type} (l : locator) (s s' : st L) :
  click l s = (Ok tt, s') ->
  exists k e,
    resolve (render B (ticks k (world s))) l = [e] /\
    visible e = true /\ enabled e = true /\
    world s' = click_on B e (ticks k (world s)).
Proof.
  unfold click. intros E. apply bind_ok in E. destruct E as (e & s1 & Eq & E).
  destruct (quiet_world _ _ _ _ (quiet_locator_query _ _ _ _ _) Eq) as (k & W).
  apply locator_query_ok in Eq. destruct Eq as (Hp & _ & _).
  apply strict_ready in Hp. destruct Hp as (e0 & Hres & He).
  destruct (visible e0 && enabled e0) eqn:Hv; [|discriminate].
  inversion He; subst e0. apply andb_true_iff in Hv. destruct Hv as [Hv1 Hv2].
  unfold act in E. inversion E; subst s'. cbn [world emit].
  exists k, e. rewrite <- W. auto.
Qed.

(** X15.  When the step that selects Portuguese passes, its click
    acted on the one element that matched the option's locator at the
    moment of the click, and that element was visible and enabled;
    the page the step leaves is that click's result some time later,
    with the network idle. *)
Theorem portuguese_option_clicked_when_actionable (s s' : st unit) :
  step_select_portuguese s = (Ok tt, s') ->
  exists j e k,
    resolve (render B (ticks j (world s))) ptBROption = [e] /\
    visible e = true /\ enabled e = true /\
    world s' = ticks k (click_on B e (ticks j (world s))) /\
    reached (render B (world s')) NetworkIdle = true.
Proof.
  unfold step_select_portuguese. intros E.
  apply bind_ok in E. destruct E as ([] & s1 & E1 & E).
  apply bind_ok in E. destruct E as ([] & s2 & E2 & E).
  apply bind_ok in E. destruct E as (txt & s3 & E3 & E).
  apply bind_ok in E. destruct E as ([] & s4 & E4 & E).
  apply bind_ok in E. destruct E as ([] & s5 & E5 & E).
  apply bind_ok in E. destruct E as ([] & s6 & E6 & E).
  destruct (quiet_world _ _ _ _ (quiet_locator_query _ _ _ _ _) E1) as (k1 & W1).
  destruct (quiet_world _ _ _ _ (quiet_locator_query _ _ _ _ _) E2) as (k2 & W2).
  destruct (quiet_world _ _ _ _ (quiet_locator_query _ _ _ _ _) E3) as (k3 & W3).
  apply expect_meaningful_ok in E4. destruct E4 as [-> _].
  inversion E5; subst s5. cbn [world emit log vars] in E6.
  apply click_ok in E6. destruct E6 as (k6 & e & Hres & Hv & He & W6).
  unfold emit in Hres, W6. cbn [world] in Hres, W6.
  apply page_wait_ok in E. destruct E as (k7 & _ & W7 & Hidle).
  assert (W : ticks k6 (world s3) = ticks (k1 + k2 + k3 + k6) (world s)).
  { rewrite W3, W2, W1, <- !ticks_add. f_equal; lia. }
  rewrite W in Hres, W6.
  exists (k1 + k2 + k3 + k6), e, k7.
  split; [exact Hres|]. split; [exact Hv|]. split; [exact He|].
  split; [rewrite W7, W6; reflexivity|exact Hidle].
Qed.

End Journey.

Arguments St {B L} world log vars.
Arguments world {B L} s.
Arguments log {B L} s.
Arguments vars {B L} s.

(** ** Concrete runs *)

Lemma demo_ticks (n : nat) (st : Demo.state) :
  ticks Demo.browser n st = Demo.later n st.
Proof.
  revert st; induction n as [|n IH]; intros st.
  - destruct st; unfold Demo.later; cbn. rewrite N.add_0_r. reflexivity.
  - cbn [ticks]. rewrite IH. destruct st; unfold Demo.later, Demo.tick; cbn.
    f_equal. lia.
Qed.

(** The whole journey passes on the usual site. *)
Example journey_passes_on_usual_site :
  fst (fst (run_test Demo.browser (Demo.start Demo.usual))) = Verified.
Proof. vm_compute. reflexivity. Qed.

(** A session on the demo browser: a state, an empty log, and the
    initial values of the step's variables. *)
#[local] Abbreviation session w v := (@St Demo.browser _ w [] v).
#[local] Abbreviation album_session c :=
  (session (Demo.at_results c) (AlbumVars None EmptyString)).
#[local] Abbreviation play_session c :=
  (session (Demo.at_album c) (PlayVars None EmptyString)).

(** *** C1: examples *)

Example album_found_by_third_strategy :
  let run := locate_album Demo.browser (album_session Demo.one_titled) in
  fst run = Ok tt /\
  vars (snd run) = AlbumVars (Some albumTitleAttr) "title attribute" /\
  log (snd run)
  = [ EvQuery (QWaitFor 5000) albumExact false;
      EvQuery (QWaitFor 3000) albumPartial false;
      EvQuery (QWaitFor 3000) albumTitleAttr true ].
Proof. vm_compute. repeat split. Qed.

(** *** C2 *)

(** C2, counterexample.  On a results page without the album the
    chain raises the timeout of its last wait; the error names one
    locator, not the four strategies that were attempted. *)
Lemma album_failure_names_one_locator :
  exists e,
    raised (fst (locate_album Demo.browser (album_session Demo.missing))) = Some e /\
    error_locators e <> map (fun c => fst (fst c)) album_strategies.
Proof.
  exists (LocatorError Timeout (QWaitFor 3000) albumCard).
  split; [vm_compute; reflexivity|]. cbn. discriminate.
Qed.

(** C2, witness: the chain on a results page without the album. *)
Lemma album_exhaustion_witness :
  let s := album_session Demo.missing in
  let e := LocatorError Timeout (QWaitFor 3000) albumCard in
  let s' := snd (locate_album Demo.browser s) in
  locate_album Demo.browser s = (Throw e, s') /\
  ((exists f, e = LocatorError f (QWaitFor 3000) albumCard) /\
   error_locators e = [albumCard] /\
   log s' = log s ++ map (probe_event false) album_strategies).
Proof.
  intros s e s'.
  assert (H : locate_album Demo.browser s = (Throw e, s')) by (vm_compute; reflexivity).
  split; [exact H|].
  exact (album_exhaustion_raises_last_error Demo.browser s e s' H).
Defined.

(** The play-button chain on a page without any button: no strategy
    selects anything, no exception is raised, and the variable still
    holds the locator of strategy 2. *)
Example play_chain_ends_without_exception :
  let s := session (Demo.at_results Demo.usual) (PlayVars None EmptyString) in
  let run := locate_play Demo.browser s in
  fst run = Ok tt /\ vars (snd run) = PlayVars (Some playByText) EmptyString.
Proof. vm_compute. split; reflexivity. Qed.

(** *** C3 *)

(** C3, counterexample.  On a site whose Play button opens no
    Portuguese prompt the run is Verified, although the wait for the
    prompt lapsed and no query on it was ever answered affirmatively. *)
Lemma verified_without_prompt :
  let run := run_test Demo.browser (Demo.start Demo.no_prompt) in
  fst (fst run) = Verified /\
  observed portugueseAuthText (log (snd run)) = false /\
  existsb (fun ev => match ev with
                     | EvQuery (QWaitFor _) l false => locator_eqb l portugueseAuthText
                     | _ => false
                     end) (log (snd run)) = true.
Proof. vm_compute. repeat split. Qed.

(** C3, witness: the Verified run on the usual site ends on the album URL. *)
Lemma verified_run_witness :
  let run := run_test Demo.browser (Demo.start Demo.usual) in
  run = (Verified, snd (fst run), snd run) /\
  Text.contains "open.spotify.com" (url (Demo.render (world (snd run)))) = true /\
  Text.contains "/album/" (url (Demo.render (world (snd run)))) = true.
Proof.
  intros run.
  assert (H : run = (Verified, snd (fst run), snd run)) by (vm_compute; reflexivity).
  split; [exact H|].
  exact (proj1 (verified_rests_on_url_not_on_prompt Demo.browser) _ _ _ H).
Defined.

(** *** C4: example *)

Example journey_stops_at_first_failure :
  map fst (snd (fst (run_test Demo.browser (Demo.start Demo.missing))))
  = firstn 8 (map fst (journey Demo.browser)) /\
  map (fun r => passed r) (snd (fst (run_test Demo.browser (Demo.start Demo.missing))))
  = [true; true; true; true; true; true; true; false].
Proof. vm_compute. split; reflexivity. Qed.

(** *** C5 *)


(** *** C6 *)

(** C6, at the failing input.  Two visible result entries match each
    of the four album locators.  Every wait of the chain is strict, so
    each of the first three raises a strict-mode violation, which is
    caught, and the fourth raises one that leaves the chain: the step
    fails and the run is not Verified, although the album is on the
    page twice. *)
Theorem album_chain_raises_on_ambiguity :
  let s := album_session Demo.twins in
  map visible (resolve (Demo.render (world s)) albumExact) = [true; true] /\
  map visible (resolve (Demo.render (world s)) albumCard) = [true; true] /\
  fst (locate_album Demo.browser s)
  = Throw (LocatorError (StrictViolation 2) (QWaitFor 3000) albumCard) /\
  log (snd (locate_album Demo.browser s))
  = map (probe_event false) album_strategies /\
  fst (fst (run_test Demo.browser (Demo.start Demo.twins))) = Failed.
Proof. vm_compute. repeat split. Qed.

(** The play-button chain narrows its locators with [first()]: four
    buttons match the text filter and the first of them is taken. *)
Example play_chain_takes_first_of_many :
  let s := play_session Demo.busy_tracklist in
  List.length (resolve (Demo.render (world s)) (Filter (Css "button") play_rx)) = 4 /\
  fst (locate_play Demo.browser s) = Ok tt /\
  vars (snd (locate_play Demo.browser s)) = PlayVars (Some playByText) text_based.
Proof. vm_compute. repeat split. Qed.

(** *** C7 *)



(** *** C8 *)


(** The play step on the usual site: one mutation, the click. *)
Example play_step_clicks_last :
  filter (fun ev => negb (is_query ev))
    (log (snd (play_body Demo.browser (play_session Demo.usual))))
  = [EvClick playByRole].
Proof. vm_compute. reflexivity. Qed.

(** On a site whose Play button shows late, every strategy lapses,
    the chain returns without a strategy name, and the validations
    that follow wait for the locator of strategy 2 and click it. *)
Example play_click_without_selected_strategy :
  let run := play_body Demo.browser (play_session Demo.slow_play) in
  fst run = Ok tt /\
  vars (snd run) = PlayVars (Some playByText) EmptyString /\
  filter (fun ev => negb (is_query ev)) (log (snd run)) = [EvClick playByText].
Proof. vm_compute. repeat split. Qed.

(** *** C9 *)

(** C9, witness: the album opens on an [/album/] URL, no title
    indicator shows, and the step passes. *)
Lemma album_step_witness :
  let s := session (Demo.at_results Demo.no_heading) tt in
  let u := "https://open.spotify.com/album/4LH4d3cOWNNsVw41Gqt2kv" in
  let s1 := snd (open_album Demo.browser
                   (St (world s) (log s) (ClickVars None false))) in
  open_album Demo.browser (St (world s) (log s) (ClickVars None false)) = (Ok u, s1) /\
  Text.contains "/album/" u = true /\
  (forall j, j <= N.to_nat 8000 -> forall l, In l albumPageIndicators ->
     shows (Demo.render (ticks Demo.browser j (world s1))) l = false) /\
  exists s', step_click_album Demo.browser s = (Ok tt, s').
Proof.
  intros s u s1.
  assert (H : open_album Demo.browser (St (world s) (log s) (ClickVars None false))
              = (Ok u, s1)) by (vm_compute; reflexivity).
  assert (Hu : Text.contains "/album/" u = true) by reflexivity.
  assert (Hunseen : forall j, j <= N.to_nat 8000 -> forall l,
            In l albumPageIndicators ->
            shows (Demo.render (ticks Demo.browser j (world s1))) l = false).
  { intros j _ l Hl. rewrite demo_ticks.
    unfold albumPageIndicators in Hl. cbn [In] in Hl.
    repeat (destruct Hl as [<-|Hl]; [reflexivity|]). contradiction. }
  split; [exact H|]. split; [exact Hu|]. split; [exact Hunseen|].
  exact (proj2 (proj2 (album_url_is_mandatory_title_is_soft Demo.browser s u s1 H) Hu)
           Hunseen).
Defined.

(** *** C10 *)

(** C10, witness: the main Play button is visible, three more sit in
    the tracklist, and strategy 1 raises. *)
Lemma tracklist_rejection_witness :
  let s := play_session Demo.busy_tracklist in
  resolve (Demo.render (world s)) tracklistPlay <> [] /\
  shows (Demo.render (world s)) playByRole = true /\
  exists s1,
    play_strategy1 Demo.browser s
    = (Throw (JsError "Main play button not found by role"), s1) /\
    world s1 = world s /\
    locate_play Demo.browser s
    = try_catch Demo.browser (play_strategy2 Demo.browser)
        (play_strategy3 Demo.browser) s1.
Proof.
  intros s.
  assert (H : resolve (Demo.render (world s)) tracklistPlay <> [])
    by (vm_compute; discriminate).
  split; [exact H|]. split; [reflexivity|].
  exact (tracklist_play_rejects_strategy1 Demo.browser s H).
Defined.

(** ** Concrete runs of the further properties *)


(** The scan on that page selects the second button, index 1. *)
Example play_scan_skips_other_buttons :
  let s := session (Demo.at_album Demo.busy_tracklist)
             (PlayVars (Some playByText) EmptyString) in
  vars (snd (play_strategy3 Demo.browser s))
  = PlayVars (Some (Nth allButtons 1)) fallback_scan.
Proof. vm_compute. reflexivity. Qed.

(** X4, witness: the play step away from the album page, where no
    button matches; the first assertion of the validations raises. *)
Lemma play_step_error_witness :
  let s := session (Demo.at_results Demo.usual) (PlayVars None EmptyString) in
  let e := LocatorError Timeout QExpectVisible playByText in
  let s' := snd (play_body Demo.browser s) in
  play_body Demo.browser s = (Throw e, s') /\
  exists f q l, e = LocatorError f q l /\ mainPlayButton (vars s') = Some l.
Proof.
  intros s e s'.
  assert (H : play_body Demo.browser s = (Throw e, s')) by (vm_compute; reflexivity).
  split; [exact H|].
  exact (play_step_error_names_the_button Demo.browser s e s' H).
Defined.

(** X5, witness: the click on the language button of the home page
    succeeds, and the step passes with one of the two screenshots. *)
Lemma language_menu_witness :
  let s := session (Demo.at_home Demo.usual) tt in
  let s1 := snd (click Demo.browser languageButton s) in
  click Demo.browser languageButton s = (Ok tt, s1) /\
  (Ok tt <> Ok tt -> step_open_language_menu Demo.browser s = (Ok tt, s1)) /\
  (Ok tt = Ok tt ->
   exists k evs,
     k <= N.to_nat 3000 /\
     forallb is_query evs = true /\
     step_open_language_menu Demo.browser s
     = (Ok tt, St (ticks Demo.browser k (world s1)) (log s1 ++ evs) tt) /\
     (In menu_opened_shot evs \/ In menu_result_shot evs)).
Proof.
  intros s s1.
  assert (H : click Demo.browser languageButton s = (Ok tt, s1))
    by (vm_compute; reflexivity).
  split; [exact H|].
  exact (language_menu_detection_is_soft Demo.browser s (Ok tt) s1 H).
Defined.

(** X7, witness: the search step on the home page. *)
Lemma search_input_focus_witness :
  let s := session (Demo.at_home Demo.usual) tt in
  let s' := snd (step_search_input Demo.browser s) in
  step_search_input Demo.browser s = (Ok tt, s') /\
  exists e, resolve (Demo.render (world s')) searchInput = [e] /\ focused e = true.
Proof.
  intros s s'.
  assert (H : step_search_input Demo.browser s = (Ok tt, s'))
    by (vm_compute; reflexivity).
  split; [exact H|].
  exact (search_input_has_focus_after_step Demo.browser s s' H).
Defined.

(** X8, witness: typing the query on the home page. *)
Lemma typed_query_witness :
  let s := session (Demo.at_home Demo.usual) tt in
  let s' := snd (type_query Demo.browser s) in
  type_query Demo.browser s = (Ok tt, s') /\
  exists e, resolve (Demo.render (world s')) searchInput = [e] /\
            value e = searchQuery.
Proof.
  intros s s'.
  assert (H : type_query Demo.browser s = (Ok tt, s')) by (vm_compute; reflexivity).
  split; [exact H|].
  exact (typed_query_is_in_the_input Demo.browser s s' H).
Defined.

(** X10, witness: the indicators on the album page of the usual site,
    where the heading carries the title. *)
Lemma album_page_confirmed_witness :
  let s := session (Demo.at_album Demo.usual) (ClickVars None false) in
  let s' := snd (confirm_album_page Demo.browser albumPageIndicators s) in
  albumPageConfirmed (vars s') = true /\
  (albumPageConfirmed (vars s) = true \/
   exists ind e,
     In ind albumPageIndicators /\
     resolve (Demo.render (world s')) ind = [e] /\
     visible e = true /\
     Text.icontains album_title (text e) = true).
Proof.
  intros s s'.
  assert (H : albumPageConfirmed (vars s') = true) by (vm_compute; reflexivity).
  split; [exact H|].
  exact (album_page_confirmed_means_title_matched Demo.browser albumPageIndicators s H).
Defined.

(** On a site without a title heading no indicator confirms the page. *)
Example album_page_not_confirmed_without_heading :
  let s := session (Demo.at_album Demo.no_heading) (ClickVars None false) in
  albumPageConfirmed
    (vars (snd (confirm_album_page Demo.browser albumPageIndicators s))) = false.
Proof. vm_compute. reflexivity. Qed.

(** X14, witness: the navigation step from a fresh browser. *)
Lemma navigation_witness :
  let s := session (Demo.start Demo.usual) tt in
  let s' := snd (step_navigate Demo.browser s) in
  step_navigate Demo.browser s = (Ok tt, s') /\
  exists w0 k1 k2,
    Demo.navigate "https://open.spotify.com/" (world s) = Some w0 /\
    Text.contains "open.spotify.com" (url (Demo.render (ticks Demo.browser k1 w0)))
    = true /\
    k1 <= k2 /\ k2 <= k1 + N.to_nat expect_timeout /\
    world s' = ticks Demo.browser k2 w0 /\
    Text.icontains "Spotify" (title (Demo.render (world s'))) = true.
Proof.
  intros s s'.
  assert (H : step_navigate Demo.browser s = (Ok tt, s')) by (vm_compute; reflexivity).
  split; [exact H|].
  exact (navigation_checks_url_then_title Demo.browser s s' H).
Defined.

(** X15, witness: the step on the home page with the language menu
    open. *)
Lemma portuguese_option_witness :
  let s := session (Demo.State Demo.usual 0%N Demo.Home true false false
                      EmptyString 0%N false) tt in
  let s' := snd (step_select_portuguese Demo.browser s) in
  step_select_portuguese Demo.browser s = (Ok tt, s') /\
  exists j e k,
    resolve (Demo.render (ticks Demo.browser j (world s))) ptBROption = [e] /\
    visible e = true /\ enabled e = true /\
    world s' = ticks Demo.browser k (Demo.click_on e (ticks Demo.browser j (world s))) /\
    reached (Demo.render (world s')) NetworkIdle = true.
Proof.
  intros s s'.
  assert (H : step_select_portuguese Demo.browser s = (Ok tt, s'))
    by (vm_compute; reflexivity).
  split; [exact H|].
  exact (portuguese_option_clicked_when_actionable Demo.browser s s' H).
Defined.
